(** * The in-memory execution database of nautilus_trader

    A shallow embedding of [InMemoryExecutionDatabase]
    (nautilus_trader/execution/database.pyx) and of the part of its base
    class [ExecutionDatabase] that it inherits ([_reset] and the three
    caches), followed by the properties of the store's contract.

    Python dicts are [gmap]s, Python sets are [gset]s, an argument that may
    be [None] is an [option], and a method is a computation in a small
    state-and-exception monad over the database fields and the messages
    handed to the logger. *)

From stdpp Require Import base option list strings gmap fin_sets fin_maps.

Set Warnings "-clear-no-such-hyp".

Local Open Scope string_scope.
Local Open Scope list_scope.

(** ** Identifiers and collaborator records *)

(** Modelled from the spec: the identifier classes
    (nautilus_trader.model.identifiers) are not in the source. They are
    opaque, comparable, hashable values; each wraps its string value. *)
Record AccountId := mkAccountId { account_value : string }.
Record ClientOrderId := mkClientOrderId { order_value : string }.
Record PositionId := mkPositionId { position_value : string }.
Record StrategyId := mkStrategyId { strategy_value : string }.

Global Instance AccountId_eq_dec : EqDecision AccountId.
Proof. solve_decision. Defined.
Global Instance ClientOrderId_eq_dec : EqDecision ClientOrderId.
Proof. solve_decision. Defined.
Global Instance PositionId_eq_dec : EqDecision PositionId.
Proof. solve_decision. Defined.
Global Instance StrategyId_eq_dec : EqDecision StrategyId.
Proof. solve_decision. Defined.

Global Program Instance AccountId_countable : Countable AccountId :=
  inj_countable' account_value mkAccountId _.
Next Obligation. by intros []. Qed.
Global Program Instance ClientOrderId_countable : Countable ClientOrderId :=
  inj_countable' order_value mkClientOrderId _.
Next Obligation. by intros []. Qed.
Global Program Instance PositionId_countable : Countable PositionId :=
  inj_countable' position_value mkPositionId _.
Next Obligation. by intros []. Qed.
Global Program Instance StrategyId_countable : Countable StrategyId :=
  inj_countable' strategy_value mkStrategyId _.
Next Obligation. by intros []. Qed.

(** Modelled from the spec: [PositionId] has a distinguished NULL value
    meaning "not yet assigned"; [is_null] recognises it. *)
Definition null_position_id : PositionId := mkPositionId "NULL".
Definition is_null (position_id : PositionId) : bool :=
  bool_decide (position_id = null_position_id).

(** Modelled from the spec: the domain objects are not in the source. The
    store reads an identity from each, the two state predicates of an
    order, and the originating order and the closed predicate of a
    position. *)
Record Account := mkAccount { acc_id : AccountId }.
Record Order := mkOrder {
  cl_ord_id : ClientOrderId;
  is_working : bool;
  is_completed : bool
}.
Record Position := mkPosition {
  pos_id : PositionId;
  from_order : ClientOrderId;
  is_closed : bool
}.
Record TradingStrategy := mkTradingStrategy { strat_id : StrategyId }.

(** ** The logger *)

(** Each call of [self._log.debug/info/warning/error] appends one entry to
    the [log] field of the database. Where a message formats an identifier,
    the identifier's string value stands for its rendering. *)

Inductive LogLevel := DEBUG | INFO | WARNING | ERROR.
Record LogEntry := mkLogEntry { level : LogLevel; message : string }.

Global Instance LogLevel_eq_dec : EqDecision LogLevel.
Proof. solve_decision. Defined.
Global Instance LogEntry_eq_dec : EqDecision LogEntry.
Proof. solve_decision. Defined.

(** ** The database fields *)

Record Db := mkDb {
  cached_accounts : gmap AccountId Account;
  cached_orders : gmap ClientOrderId Order;
  cached_positions : gmap PositionId Position;
  strategies : gset StrategyId;
  index_order_position : gmap ClientOrderId PositionId;
  index_order_strategy : gmap ClientOrderId StrategyId;
  index_position_strategy : gmap PositionId StrategyId;
  index_position_orders : gmap PositionId (gset ClientOrderId);
  index_strategy_orders : gmap StrategyId (gset ClientOrderId);
  index_strategy_positions : gmap StrategyId (gset PositionId);
  index_orders : gset ClientOrderId;
  index_orders_working : gset ClientOrderId;
  index_orders_completed : gset ClientOrderId;
  index_positions : gset PositionId;
  index_positions_open : gset PositionId;
  index_positions_closed : gset PositionId;
  log : list LogEntry
}.

(** [__init__]: every dict and set starts empty. *)
Definition init : Db :=
  mkDb ∅ ∅ ∅ ∅ ∅ ∅ ∅ ∅ ∅ ∅ ∅ ∅ ∅ ∅ ∅ ∅ [].

(** Field updates: [self.field = f(self.field)], every other field kept. *)
Definition set_cached_accounts f (db : Db) : Db :=
  let '(mkDb ca co cp st iop ios ips ipo iso isp io iow ioc ip ipn ipc lg) := db in
  mkDb (f ca) co cp st iop ios ips ipo iso isp io iow ioc ip ipn ipc lg.
Definition set_cached_orders f (db : Db) : Db :=
  let '(mkDb ca co cp st iop ios ips ipo iso isp io iow ioc ip ipn ipc lg) := db in
  mkDb ca (f co) cp st iop ios ips ipo iso isp io iow ioc ip ipn ipc lg.
Definition set_cached_positions f (db : Db) : Db :=
  let '(mkDb ca co cp st iop ios ips ipo iso isp io iow ioc ip ipn ipc lg) := db in
  mkDb ca co (f cp) st iop ios ips ipo iso isp io iow ioc ip ipn ipc lg.
Definition set_strategies f (db : Db) : Db :=
  let '(mkDb ca co cp st iop ios ips ipo iso isp io iow ioc ip ipn ipc lg) := db in
  mkDb ca co cp (f st) iop ios ips ipo iso isp io iow ioc ip ipn ipc lg.
Definition set_index_order_position f (db : Db) : Db :=
  let '(mkDb ca co cp st iop ios ips ipo iso isp io iow ioc ip ipn ipc lg) := db in
  mkDb ca co cp st (f iop) ios ips ipo iso isp io iow ioc ip ipn ipc lg.
Definition set_index_order_strategy f (db : Db) : Db :=
  let '(mkDb ca co cp st iop ios ips ipo iso isp io iow ioc ip ipn ipc lg) := db in
  mkDb ca co cp st iop (f ios) ips ipo iso isp io iow ioc ip ipn ipc lg.
Definition set_index_position_strategy f (db : Db) : Db :=
  let '(mkDb ca co cp st iop ios ips ipo iso isp io iow ioc ip ipn ipc lg) := db in
  mkDb ca co cp st iop ios (f ips) ipo iso isp io iow ioc ip ipn ipc lg.
Definition set_index_position_orders f (db : Db) : Db :=
  let '(mkDb ca co cp st iop ios ips ipo iso isp io iow ioc ip ipn ipc lg) := db in
  mkDb ca co cp st iop ios ips (f ipo) iso isp io iow ioc ip ipn ipc lg.
Definition set_index_strategy_orders f (db : Db) : Db :=
  let '(mkDb ca co cp st iop ios ips ipo iso isp io iow ioc ip ipn ipc lg) := db in
  mkDb ca co cp st iop ios ips ipo (f iso) isp io iow ioc ip ipn ipc lg.
Definition set_index_strategy_positions f (db : Db) : Db :=
  let '(mkDb ca co cp st iop ios ips ipo iso isp io iow ioc ip ipn ipc lg) := db in
  mkDb ca co cp st iop ios ips ipo iso (f isp) io iow ioc ip ipn ipc lg.
Definition set_index_orders f (db : Db) : Db :=
  let '(mkDb ca co cp st iop ios ips ipo iso isp io iow ioc ip ipn ipc lg) := db in
  mkDb ca co cp st iop ios ips ipo iso isp (f io) iow ioc ip ipn ipc lg.
Definition set_index_orders_working f (db : Db) : Db :=
  let '(mkDb ca co cp st iop ios ips ipo iso isp io iow ioc ip ipn ipc lg) := db in
  mkDb ca co cp st iop ios ips ipo iso isp io (f iow) ioc ip ipn ipc lg.
Definition set_index_orders_completed f (db : Db) : Db :=
  let '(mkDb ca co cp st iop ios ips ipo iso isp io iow ioc ip ipn ipc lg) := db in
  mkDb ca co cp st iop ios ips ipo iso isp io iow (f ioc) ip ipn ipc lg.
Definition set_index_positions f (db : Db) : Db :=
  let '(mkDb ca co cp st iop ios ips ipo iso isp io iow ioc ip ipn ipc lg) := db in
  mkDb ca co cp st iop ios ips ipo iso isp io iow ioc (f ip) ipn ipc lg.
Definition set_index_positions_open f (db : Db) : Db :=
  let '(mkDb ca co cp st iop ios ips ipo iso isp io iow ioc ip ipn ipc lg) := db in
  mkDb ca co cp st iop ios ips ipo iso isp io iow ioc ip (f ipn) ipc lg.
Definition set_index_positions_closed f (db : Db) : Db :=
  let '(mkDb ca co cp st iop ios ips ipo iso isp io iow ioc ip ipn ipc lg) := db in
  mkDb ca co cp st iop ios ips ipo iso isp io iow ioc ip ipn (f ipc) lg.
Definition set_log f (db : Db) : Db :=
  let '(mkDb ca co cp st iop ios ips ipo iso isp io iow ioc ip ipn ipc lg) := db in
  mkDb ca co cp st iop ios ips ipo iso isp io iow ioc ip ipn ipc (f lg).

(** ** Failures and the method monad *)

(** Modelled from the spec: [Condition] (nautilus_trader.core.correctness)
    is not in the source. A failed check is a precondition violation that
    aborts the calling method; its kinds are a null argument, a duplicate
    identifier and an unregistered identifier. *)
Inductive PreconditionError :=
| NullArgument (param : string)
| DuplicateIdentifier (param1 param2 : string)
| NotRegistered (param1 param2 : string).

Inductive Outcome (A : Type) :=
| Returned (a : A)
| Raised (e : PreconditionError).
Arguments Returned {A} a.
Arguments Raised {A} e.

(** A method runs on the database and leaves it as mutated so far, also
    when it raises. *)
Definition M (A : Type) : Type := Db → Outcome A * Db.

Global Instance M_ret : MRet M := λ A a db, (Returned a, db).
Global Instance M_bind : MBind M := λ A B f m db,
  match m db with
  | (Returned a, db') => f a db'
  | (Raised e, db') => (Raised e, db')
  end.

Definition raise {A} (e : PreconditionError) : M A := λ db, (Raised e, db).
Definition gets {A} (f : Db → A) : M A := λ db, (Returned (f db), db).
Definition modify (f : Db → Db) : M unit := λ db, (Returned tt, f db).

Definition failed {A} (r : Outcome A * Db) : Prop :=
  match r.1 with Raised _ => True | Returned _ => False end.

Definition log_at (lvl : LogLevel) (msg : string) : M unit :=
  modify (set_log (λ l, l ++ [mkLogEntry lvl msg])).

Module Condition.
Definition not_none {A} (argument : option A) (param : string) : M A :=
  match argument with
  | Some a => mret a
  | None => raise (NullArgument param)
  end.

Definition not_in `{Countable K} (element : K) (collection : gset K)
    (param1 param2 : string) : M unit :=
  if decide (element ∈ collection) then raise (DuplicateIdentifier param1 param2)
  else mret tt.

Definition is_in `{Countable K} (element : K) (collection : gset K)
    (param1 param2 : string) : M unit :=
  if decide (element ∈ collection) then mret tt
  else raise (NotRegistered param1 param2).
End Condition.

(** ** Commands *)

(** [if key not in index: index[key] = {member} else: index[key].add(member)] *)
Definition index_add `{Countable K, Countable V}
    (key : K) (member : V) (index : gmap K (gset V)) : gmap K (gset V) :=
  match index !! key with
  | None => <[key := {[member]}]> index
  | Some members => <[key := members ∪ {[member]}]> index
  end.

Definition add_account (account : option Account) : M unit :=
  account ← Condition.not_none account "account";
  accounts ← gets cached_accounts;
  Condition.not_in (acc_id account) (dom accounts) "account.id" "cached_accounts";;
  modify (set_cached_accounts <[acc_id account := account]>);;
  log_at DEBUG ("Added Account(id=" +:+ account_value (acc_id account) +:+ ").").

Definition index_position_id (position_id : option PositionId)
    (cl_ord_id : option ClientOrderId) (strategy_id : option StrategyId) : M unit :=
  position_id ← Condition.not_none position_id "position_id";
  cl_ord_id ← Condition.not_none cl_ord_id "cl_ord_id";
  strategy_id ← Condition.not_none strategy_id "strategy_id";
  (* Index: ClientOrderId -> PositionId *)
  order_position ← gets index_order_position;
  match order_position !! cl_ord_id with
  | None => modify (set_index_order_position <[cl_ord_id := position_id]>)
  | Some indexed =>
      if decide (position_id = indexed) then mret tt
      else log_at ERROR ("Order indexing invalid for " +:+ position_value position_id +:+ ".")
  end;;
  (* Index: PositionId -> StrategyId *)
  position_strategy ← gets index_position_strategy;
  match position_strategy !! position_id with
  | None => modify (set_index_position_strategy <[position_id := strategy_id]>)
  | Some indexed =>
      if decide (strategy_id = indexed) then mret tt
      else log_at ERROR ("Strategy indexing invalid for " +:+ position_value position_id +:+ ".")
  end;;
  (* Index: PositionId -> Set[ClientOrderId] *)
  modify (set_index_position_orders (index_add position_id cl_ord_id));;
  (* Index: StrategyId -> Set[PositionId] *)
  modify (set_index_strategy_positions (index_add strategy_id position_id)).

Definition add_order (order : option Order) (position_id : option PositionId)
    (strategy_id : option StrategyId) : M unit :=
  order ← Condition.not_none order "order";
  position_id ← Condition.not_none position_id "position_id";
  strategy_id ← Condition.not_none strategy_id "strategy_id";
  orders ← gets cached_orders;
  Condition.not_in (cl_ord_id order) (dom orders) "order.cl_ord_id" "cached_orders";;
  order_ids ← gets index_orders;
  Condition.not_in (cl_ord_id order) order_ids "order.cl_ord_id" "index_orders";;
  order_position ← gets index_order_position;
  Condition.not_in (cl_ord_id order) (dom order_position)
    "order.cl_ord_id" "index_order_position";;
  order_strategy ← gets index_order_strategy;
  Condition.not_in (cl_ord_id order) (dom order_strategy)
    "order.cl_ord_id" "index_order_strategy";;
  modify (set_cached_orders <[cl_ord_id order := order]>);;
  modify (set_index_orders (λ ids, ids ∪ {[cl_ord_id order]}));;
  modify (set_index_order_strategy <[cl_ord_id order := strategy_id]>);;
  (* Index: StrategyId -> Set[ClientOrderId] *)
  modify (set_index_strategy_orders (index_add strategy_id (cl_ord_id order)));;
  log_at DEBUG ("Added Order(cl_ord_id=" +:+ order_value (cl_ord_id order) +:+ ").");;
  if is_null position_id then mret tt  (* Do not index the NULL id *)
  else index_position_id (Some position_id) (Some (cl_ord_id order)) (Some strategy_id).

Definition add_position (position : option Position) (strategy_id : option StrategyId)
    : M unit :=
  position ← Condition.not_none position "position";
  strategy_id ← Condition.not_none strategy_id "strategy_id";
  positions ← gets cached_positions;
  Condition.not_in (pos_id position) (dom positions) "position.id" "cached_positions";;
  position_ids ← gets index_positions;
  Condition.not_in (pos_id position) position_ids "position.id" "index_positions";;
  open_ids ← gets index_positions_open;
  Condition.not_in (pos_id position) open_ids "position.id" "index_positions_open";;
  modify (set_cached_positions <[pos_id position := position]>);;
  modify (set_index_positions (λ ids, ids ∪ {[pos_id position]}));;
  modify (set_index_positions_open (λ ids, ids ∪ {[pos_id position]}));;
  index_position_id (Some (pos_id position)) (Some (from_order position)) (Some strategy_id);;
  log_at DEBUG ("Added Position(id=" +:+ position_value (pos_id position) +:+ ").").

Definition update_account (account : option Account) : M unit :=
  mret tt.  (* Do nothing in memory *)

Definition update_strategy (strategy : option TradingStrategy) : M unit :=
  strategy ← Condition.not_none strategy "strategy";
  log_at INFO ("Saving " +:+ strategy_value (strat_id strategy)
               +:+ " (in-memory database does nothing).");;
  modify (set_strategies (λ ids, ids ∪ {[strat_id strategy]})).

Definition update_order (order : option Order) : M unit :=
  order ← Condition.not_none order "order";
  if is_working order then
    modify (set_index_orders_working (λ ids, ids ∪ {[cl_ord_id order]}));;
    modify (set_index_orders_completed (λ ids, ids ∖ {[cl_ord_id order]}))
  else if is_completed order then
    modify (set_index_orders_completed (λ ids, ids ∪ {[cl_ord_id order]}));;
    modify (set_index_orders_working (λ ids, ids ∖ {[cl_ord_id order]}))
  else mret tt.

Definition update_position (position : option Position) : M unit :=
  position ← Condition.not_none position "position";
  if is_closed position then
    modify (set_index_positions_closed (λ ids, ids ∪ {[pos_id position]}));;
    modify (set_index_positions_open (λ ids, ids ∖ {[pos_id position]}))
  else mret tt.

Definition load_strategy (strategy : option TradingStrategy) : M unit :=
  strategy ← Condition.not_none strategy "strategy";
  log_at INFO ("Loading " +:+ strategy_value (strat_id strategy)
               +:+ " (in-memory database does nothing).").

Definition load_account (account_id : option AccountId) : M (option Account) :=
  account_id ← Condition.not_none account_id "account_id";
  gets (λ db, cached_accounts db !! account_id).

Definition load_order (cl_ord_id : option ClientOrderId) : M (option Order) :=
  cl_ord_id ← Condition.not_none cl_ord_id "cl_ord_id";
  gets (λ db, cached_orders db !! cl_ord_id).

Definition load_position (position_id : option PositionId) : M (option Position) :=
  position_id ← Condition.not_none position_id "position_id";
  gets (λ db, cached_positions db !! position_id).

Definition delete_strategy (strategy : option TradingStrategy) : M unit :=
  strategy ← Condition.not_none strategy "strategy";
  known ← gets strategies;
  Condition.is_in (strat_id strategy) known "strategy.id" "strategies";;
  modify (set_strategies (λ ids, ids ∖ {[strat_id strategy]}));;
  strategy_orders ← gets index_strategy_orders;
  (if decide (strat_id strategy ∈ dom strategy_orders)
   then modify (set_index_strategy_orders (delete (strat_id strategy)))
   else mret tt);;
  strategy_positions ← gets index_strategy_positions;
  (if decide (strat_id strategy ∈ dom strategy_positions)
   then modify (set_index_strategy_positions (delete (strat_id strategy)))
   else mret tt);;
  log_at DEBUG ("Deleted Strategy(id=" +:+ strategy_value (strat_id strategy) +:+ ").").

(** [ExecutionDatabase._reset]: the three caches of the base class. *)
Definition _reset : M unit :=
  log_at DEBUG "Resetting...";;
  modify (set_cached_accounts (λ _, ∅));;
  modify (set_cached_orders (λ _, ∅));;
  modify (set_cached_positions (λ _, ∅));;
  log_at INFO "Reset.".

Definition reset : M unit :=
  log_at DEBUG "Resetting...";;
  modify (set_strategies (λ _, ∅));;
  modify (set_index_order_position (λ _, ∅));;
  modify (set_index_order_strategy (λ _, ∅));;
  modify (set_index_position_strategy (λ _, ∅));;
  modify (set_index_position_orders (λ _, ∅));;
  modify (set_index_strategy_orders (λ _, ∅));;
  modify (set_index_strategy_positions (λ _, ∅));;
  modify (set_index_orders (λ _, ∅));;
  modify (set_index_orders_working (λ _, ∅));;
  modify (set_index_orders_completed (λ _, ∅));;
  modify (set_index_positions (λ _, ∅));;
  modify (set_index_positions_open (λ _, ∅));;
  modify (set_index_positions_closed (λ _, ∅));;
  _reset.

Definition flush : M unit :=
  log_at INFO "Flushing database (in-memory database does nothing).".

(** ** Queries *)

Definition get_account (account_id : option AccountId) : M (option Account) :=
  account_id ← Condition.not_none account_id "account_id";
  gets (λ db, cached_accounts db !! account_id).

Definition get_strategy_ids (db : Db) : gset StrategyId := strategies db.

(** The six id-set queries neither check a precondition nor log: they are
    functions of the filter and the database. A copy of a set is the set. *)
Definition get_order_ids (strategy_id : option StrategyId) (db : Db)
    : gset ClientOrderId :=
  match strategy_id with
  | None => index_orders db
  | Some strategy_id =>
      match index_strategy_orders db !! strategy_id with
      | None => ∅  (* Empty set *)
      | Some strategy_order_ids => index_orders db ∩ strategy_order_ids
      end
  end.

Definition get_order_working_ids (strategy_id : option StrategyId) (db : Db)
    : gset ClientOrderId :=
  match strategy_id with
  | None => index_orders_working db
  | Some strategy_id =>
      match index_strategy_orders db !! strategy_id with
      | None => ∅
      | Some strategy_order_ids => index_orders_working db ∩ strategy_order_ids
      end
  end.

Definition get_order_completed_ids (strategy_id : option StrategyId) (db : Db)
    : gset ClientOrderId :=
  match strategy_id with
  | None => index_orders_completed db
  | Some strategy_id =>
      match index_strategy_orders db !! strategy_id with
      | None => ∅
      | Some strategy_order_ids => index_orders_completed db ∩ strategy_order_ids
      end
  end.

Definition get_position_ids (strategy_id : option StrategyId) (db : Db)
    : gset PositionId :=
  match strategy_id with
  | None => index_positions db
  | Some strategy_id =>
      match index_strategy_positions db !! strategy_id with
      | None => ∅
      | Some strategy_position_ids => index_positions db ∩ strategy_position_ids
      end
  end.

Definition get_position_open_ids (strategy_id : option StrategyId) (db : Db)
    : gset PositionId :=
  match strategy_id with
  | None => index_positions_open db
  | Some strategy_id =>
      match index_strategy_positions db !! strategy_id with
      | None => ∅
      | Some strategy_position_ids => index_positions_open db ∩ strategy_position_ids
      end
  end.

Definition get_position_closed_ids (strategy_id : option StrategyId) (db : Db)
    : gset PositionId :=
  match strategy_id with
  | None => index_positions_closed db
  | Some strategy_id =>
      match index_strategy_positions db !! strategy_id with
      | None => ∅
      | Some strategy_position_ids => index_positions_closed db ∩ strategy_position_ids
      end
  end.

Definition get_strategy_for_order (cl_ord_id : option ClientOrderId)
    : M (option StrategyId) :=
  cl_ord_id ← Condition.not_none cl_ord_id "cl_ord_id";
  gets (λ db, index_order_strategy db !! cl_ord_id).

Definition get_strategy_for_position (position_id : option PositionId)
    : M (option StrategyId) :=
  position_id ← Condition.not_none position_id "position_id";
  gets (λ db, index_position_strategy db !! position_id).

Definition get_order (cl_ord_id : option ClientOrderId) : M (option Order) :=
  cl_ord_id ← Condition.not_none cl_ord_id "cl_ord_id";
  gets (λ db, cached_orders db !! cl_ord_id).

(** [{key: cache[key] for key in ids}], the ids taken in iteration order:
    the comprehension either builds the whole dict or stops at the first
    key that [cache] lacks with [KeyError(key)]. *)
Fixpoint comprehension `{Countable K} {V} (cache : gmap K V) (ids : list K)
    (built : gmap K V) : K + gmap K V :=
  match ids with
  | [] => inr built
  | key :: ids =>
      match cache !! key with
      | None => inl key
      | Some record => comprehension cache ids (<[key := record]> built)
      end
  end.

(** What a [cdef dict] local holds when the method reaches [return]: the
    dict bound by the assignment inside [try], or nothing when the
    comprehension raised before the assignment took place. *)
Inductive Binding (A : Type) :=
| Bound (a : A)
| Unassigned.
Arguments Bound {A} a.
Arguments Unassigned {A}.

(** The body shared by the six dict-returning queries: the [try] block, the
    [except KeyError] handler with its message prefix, and [return]. *)
Definition project `{Countable K} {V} (render : K → string) (prefix : string)
    (ids : gset K) (cache : gmap K V) : M (Binding (gmap K V)) :=
  match comprehension cache (elements ids) ∅ with
  | inr records => mret (Bound records)
  | inl key => log_at ERROR (prefix +:+ render key);; mret Unassigned
  end.

Definition get_orders (strategy_id : option StrategyId)
    : M (Binding (gmap ClientOrderId Order)) :=
  order_ids ← gets (get_order_ids strategy_id);
  cache ← gets cached_orders;
  project order_value "Cannot find order object in cached orders " order_ids cache.

Definition get_orders_working (strategy_id : option StrategyId)
    : M (Binding (gmap ClientOrderId Order)) :=
  order_ids ← gets (get_order_working_ids strategy_id);
  cache ← gets cached_orders;
  project order_value "Cannot find Order object in cache " order_ids cache.

Definition get_orders_completed (strategy_id : option StrategyId)
    : M (Binding (gmap ClientOrderId Order)) :=
  order_ids ← gets (get_order_completed_ids strategy_id);
  cache ← gets cached_orders;
  project order_value "Cannot find Order object in cache " order_ids cache.

Definition get_position (position_id : option PositionId) : M (option Position) :=
  position_id ← Condition.not_none position_id "position_id";
  gets (λ db, cached_positions db !! position_id).

Definition get_position_id (cl_ord_id : option ClientOrderId) : M (option PositionId) :=
  cl_ord_id ← Condition.not_none cl_ord_id "cl_ord_id";
  gets (λ db, index_order_position db !! cl_ord_id).

Definition get_positions (strategy_id : option StrategyId)
    : M (Binding (gmap PositionId Position)) :=
  position_ids ← gets (get_position_ids strategy_id);
  cache ← gets cached_positions;
  project position_value "Cannot find Position object in cache " position_ids cache.

Definition get_positions_open (strategy_id : option StrategyId)
    : M (Binding (gmap PositionId Position)) :=
  position_ids ← gets (get_position_open_ids strategy_id);
  cache ← gets cached_positions;
  project position_value "Cannot find Position object in cache " position_ids cache.

Definition get_positions_closed (strategy_id : option StrategyId)
    : M (Binding (gmap PositionId Position)) :=
  position_ids ← gets (get_position_closed_ids strategy_id);
  cache ← gets cached_positions;
  project position_value "Cannot find Position object in cache " position_ids cache.

Definition order_exists (cl_ord_id : option ClientOrderId) : M bool :=
  cl_ord_id ← Condition.not_none cl_ord_id "cl_ord_id";
  gets (λ db, bool_decide (cl_ord_id ∈ index_orders db)).

Definition is_order_working (cl_ord_id : option ClientOrderId) : M bool :=
  cl_ord_id ← Condition.not_none cl_ord_id "cl_ord_id";
  gets (λ db, bool_decide (cl_ord_id ∈ index_orders_working db)).

Definition is_order_completed (cl_ord_id : option ClientOrderId) : M bool :=
  cl_ord_id ← Condition.not_none cl_ord_id "cl_ord_id";
  gets (λ db, bool_decide (cl_ord_id ∈ index_orders_completed db)).

(** The count queries are [len] of the id-set query. The count is kept as
    the natural number that [len] computes; the declared C [int] return type
    holds it unchanged for every set of fewer than 2^31 ids. *)
Definition orders_total_count (strategy_id : option StrategyId) (db : Db) : nat :=
  size (get_order_ids strategy_id db).

Definition orders_working_count (strategy_id : option StrategyId) (db : Db) : nat :=
  size (get_order_working_ids strategy_id db).

Definition orders_completed_count (strategy_id : option StrategyId) (db : Db) : nat :=
  size (get_order_completed_ids strategy_id db).

Definition position_exists (position_id : option PositionId) : M bool :=
  position_id ← Condition.not_none position_id "position_id";
  gets (λ db, bool_decide (position_id ∈ index_positions db)).

Definition position_exists_for_order (cl_ord_id : option ClientOrderId) : M bool :=
  cl_ord_id ← Condition.not_none cl_ord_id "cl_ord_id";
  position_id ← gets (λ db, index_order_position db !! cl_ord_id);
  match position_id with
  | None => mret false
  | Some position_id => gets (λ db, bool_decide (position_id ∈ index_positions db))
  end.

Definition position_indexed_for_order (cl_ord_id : option ClientOrderId) : M bool :=
  cl_ord_id ← Condition.not_none cl_ord_id "cl_ord_id";
  gets (λ db, bool_decide (cl_ord_id ∈ dom (index_order_position db))).

Definition is_position_open (position_id : option PositionId) : M bool :=
  position_id ← Condition.not_none position_id "position_id";
  gets (λ db, bool_decide (position_id ∈ index_positions_open db)).

Definition is_position_closed (position_id : option PositionId) : M bool :=
  position_id ← Condition.not_none position_id "position_id";
  gets (λ db, bool_decide (position_id ∈ index_positions_closed db)).

Definition positions_total_count (strategy_id : option StrategyId) (db : Db) : nat :=
  size (get_position_ids strategy_id db).

Definition positions_open_count (strategy_id : option StrategyId) (db : Db) : nat :=
  size (get_position_open_ids strategy_id db).

Definition positions_closed_count (strategy_id : option StrategyId) (db : Db) : nat :=
  size (get_position_closed_ids strategy_id db).

(** ** Command sequences *)

Inductive Command :=
| AddAccount (account : option Account)
| AddOrder (order : option Order) (position_id : option PositionId)
    (strategy_id : option StrategyId)
| AddPosition (position : option Position) (strategy_id : option StrategyId)
| UpdateAccount (account : option Account)
| UpdateStrategy (strategy : option TradingStrategy)
| UpdateOrder (order : option Order)
| UpdatePosition (position : option Position)
| LoadStrategy (strategy : option TradingStrategy)
| DeleteStrategy (strategy : option TradingStrategy)
| Reset
| Flush.

Definition command (c : Command) : M unit :=
  match c with
  | AddAccount account => add_account account
  | AddOrder order position_id strategy_id => add_order order position_id strategy_id
  | AddPosition position strategy_id => add_position position strategy_id
  | UpdateAccount account => update_account account
  | UpdateStrategy strategy => update_strategy strategy
  | UpdateOrder order => update_order order
  | UpdatePosition position => update_position position
  | LoadStrategy strategy => load_strategy strategy
  | DeleteStrategy strategy => delete_strategy strategy
  | Reset => reset
  | Flush => flush
  end.

(** The database after a command, whether it returned or raised: the caller
    keeps the same database object either way. *)
Definition exec (c : Command) (db : Db) : Db := (command c db).2.

(** The database after each command of a sequence, in order. *)
Fixpoint states (cmds : list Command) (db : Db) : list Db :=
  match cmds with
  | [] => []
  | c :: cmds => exec c db :: states cmds (exec c db)
  end.

Definition run (cmds : list Command) (db : Db) : Db := foldl (λ db c, exec c db) db cmds.

Definition reachable (db : Db) : Prop := ∃ cmds, db = run cmds init.

(** * Vocabulary of the properties *)

(** The strategy-scoped secondary sets, empty for a strategy without entry. *)
Definition strategy_orders (strategy_id : StrategyId) (db : Db) : gset ClientOrderId :=
  default ∅ (index_strategy_orders db !! strategy_id).
Definition strategy_positions (strategy_id : StrategyId) (db : Db) : gset PositionId :=
  default ∅ (index_strategy_positions db !! strategy_id).

(** A set-once entry: written when the key is free, kept otherwise. *)
Definition set_once `{Countable K} {V} (key : K) (value : V) (index : gmap K V)
    : gmap K V :=
  match index !! key with
  | None => <[key := value]> index
  | Some _ => index
  end.

(** The entries logged for a key that is already mapped to another value. *)
Definition conflict `{Countable K} `{EqDecision V} (key : K) (value : V)
    (index : gmap K V) (msg : string) : list LogEntry :=
  match index !! key with
  | Some indexed => if decide (value = indexed) then [] else [mkLogEntry ERROR msg]
  | None => []
  end.

Definition order_conflict_msg (position_id : PositionId) : string :=
  "Order indexing invalid for " +:+ position_value position_id +:+ ".".
Definition strategy_conflict_msg (position_id : PositionId) : string :=
  "Strategy indexing invalid for " +:+ position_value position_id +:+ ".".

(** The database that [index_position_id] leaves. *)
Definition indexed (position_id : PositionId) (cl_ord_id : ClientOrderId)
    (strategy_id : StrategyId) (db : Db) : Db :=
  set_index_strategy_positions (index_add strategy_id position_id)
    (set_index_position_orders (index_add position_id cl_ord_id)
       (set_log (λ l, l
                   ++ conflict cl_ord_id position_id (index_order_position db)
                        (order_conflict_msg position_id)
                   ++ conflict position_id strategy_id (index_position_strategy db)
                        (strategy_conflict_msg position_id))
          (set_index_position_strategy (set_once position_id strategy_id)
             (set_index_order_position (set_once cl_ord_id position_id) db)))).

(** The claim of C6 on [strategy→orders]: after the routine, the order is a
    member of the strategy's entry in that index. *)
Definition unions_strategy_orders (position_id : PositionId) (cl_ord_id : ClientOrderId)
    (strategy_id : StrategyId) (db : Db) : Prop :=
  let db' := (index_position_id (Some position_id) (Some cl_ord_id) (Some strategy_id) db).2 in
  ∃ ids, index_strategy_orders db' !! strategy_id = Some ids ∧ cl_ord_id ∈ ids.

(** The database that a successful [add_account] leaves. *)
Definition account_added (account : Account) (db : Db) : Db :=
  set_log (λ l, l ++ [mkLogEntry DEBUG
             ("Added Account(id=" +:+ account_value (acc_id account) +:+ ").")])
    (set_cached_accounts <[acc_id account := account]> db).

(** The database that a successful [add_order] leaves. *)
Definition order_added (order : Order) (position_id : PositionId)
    (strategy_id : StrategyId) (db : Db) : Db :=
  let db' :=
    set_log (λ l, l ++ [mkLogEntry DEBUG
               ("Added Order(cl_ord_id=" +:+ order_value (cl_ord_id order) +:+ ").")])
      (set_index_strategy_orders (index_add strategy_id (cl_ord_id order))
         (set_index_order_strategy <[cl_ord_id order := strategy_id]>
            (set_index_orders (λ ids, ids ∪ {[cl_ord_id order]})
               (set_cached_orders <[cl_ord_id order := order]> db)))) in
  if is_null position_id then db'
  else indexed position_id (cl_ord_id order) strategy_id db'.

(** The database that a successful [add_position] leaves. *)
Definition position_added (position : Position) (strategy_id : StrategyId) (db : Db)
    : Db :=
  set_log (λ l, l ++ [mkLogEntry DEBUG
             ("Added Position(id=" +:+ position_value (pos_id position) +:+ ").")])
    (indexed (pos_id position) (from_order position) strategy_id
       (set_index_positions_open (λ ids, ids ∪ {[pos_id position]})
          (set_index_positions (λ ids, ids ∪ {[pos_id position]})
             (set_cached_positions <[pos_id position := position]> db)))).

(** The duplication checks of the three [add_*] commands. *)
Definition account_known (account : Account) (db : Db) : Prop :=
  acc_id account ∈ dom (cached_accounts db).
Definition order_known (order : Order) (db : Db) : Prop :=
  cl_ord_id order ∈ dom (cached_orders db)
  ∨ cl_ord_id order ∈ index_orders db
  ∨ cl_ord_id order ∈ dom (index_order_position db)
  ∨ cl_ord_id order ∈ dom (index_order_strategy db).
Definition position_known (position : Position) (db : Db) : Prop :=
  pos_id position ∈ dom (cached_positions db)
  ∨ pos_id position ∈ index_positions db
  ∨ pos_id position ∈ index_positions_open db.

Global Instance order_known_dec order db : Decision (order_known order db).
Proof. unfold order_known. apply _. Defined.
Global Instance position_known_dec position db : Decision (position_known position db).
Proof. unfold position_known. apply _. Defined.
Global Instance account_known_dec account db : Decision (account_known account db).
Proof. unfold account_known. apply _. Defined.

(** The mapping the projection is meant to produce, in the words of the
    contract: exactly the ids of the id-set that have a backing record. *)
Definition partial_mapping `{Countable K} {V} (ids : gset K) (cache : gmap K V)
    : gmap K V :=
  filter (λ entry, entry.1 ∈ ids) cache.

Definition strategy_updated (strategy : TradingStrategy) (db : Db) : Db :=
  set_strategies (λ ids, ids ∪ {[strat_id strategy]})
    (set_log (λ l, l ++ [mkLogEntry INFO
                ("Saving " +:+ strategy_value (strat_id strategy)
                 +:+ " (in-memory database does nothing).")]) db).

Definition order_updated (order : Order) (db : Db) : Db :=
  if is_working order then
    set_index_orders_completed (λ ids, ids ∖ {[cl_ord_id order]})
      (set_index_orders_working (λ ids, ids ∪ {[cl_ord_id order]}) db)
  else if is_completed order then
    set_index_orders_working (λ ids, ids ∖ {[cl_ord_id order]})
      (set_index_orders_completed (λ ids, ids ∪ {[cl_ord_id order]}) db)
  else db.

Definition position_updated (position : Position) (db : Db) : Db :=
  if is_closed position then
    set_index_positions_open (λ ids, ids ∖ {[pos_id position]})
      (set_index_positions_closed (λ ids, ids ∪ {[pos_id position]}) db)
  else db.

Definition strategy_deleted (strategy : TradingStrategy) (db : Db) : Db :=
  set_log (λ l, l ++ [mkLogEntry DEBUG
             ("Deleted Strategy(id=" +:+ strategy_value (strat_id strategy) +:+ ").")])
    (set_index_strategy_positions (delete (strat_id strategy))
       (set_index_strategy_orders (delete (strat_id strategy))
          (set_strategies (λ ids, ids ∖ {[strat_id strategy]}) db))).

Definition cleared (db : Db) : Db :=
  mkDb ∅ ∅ ∅ ∅ ∅ ∅ ∅ ∅ ∅ ∅ ∅ ∅ ∅ ∅ ∅ ∅
    (log db ++ [mkLogEntry DEBUG "Resetting..."; mkLogEntry DEBUG "Resetting...";
                mkLogEntry INFO "Reset."]).

(** [transition c db db']: command [c] takes the database from [db] to
    [db']. A command that raises, and one that only logs, leaves every dict
    and set as it was. *)
Inductive transition : Command → Db → Db → Prop :=
| raised_transition c e db :
    command c db = (Raised e, db) → transition c db db
| logged_transition c entries db :
    transition c db (set_log (λ l, l ++ entries) db)
| add_account_transition account db :
    ¬ account_known account db →
    transition (AddAccount (Some account)) db (account_added account db)
| add_order_transition order position_id strategy_id db :
    ¬ order_known order db →
    transition (AddOrder (Some order) (Some position_id) (Some strategy_id)) db
      (order_added order position_id strategy_id db)
| add_position_transition position strategy_id db :
    ¬ position_known position db →
    transition (AddPosition (Some position) (Some strategy_id)) db
      (position_added position strategy_id db)
| update_strategy_transition strategy db :
    transition (UpdateStrategy (Some strategy)) db (strategy_updated strategy db)
| update_order_transition order db :
    transition (UpdateOrder (Some order)) db (order_updated order db)
| update_position_transition position db :
    transition (UpdatePosition (Some position)) db (position_updated position db)
| delete_strategy_transition strategy db :
    strat_id strategy ∈ strategies db →
    transition (DeleteStrategy (Some strategy)) db (strategy_deleted strategy db)
| reset_transition db :
    transition Reset db (cleared db).

(** Every order listed under a position in [position→orders] has an entry
    in [order→position]. *)
Definition position_orders_indexed (db : Db) : Prop :=
  ∀ p ids c, index_position_orders db !! p = Some ids → c ∈ ids →
    c ∈ dom (index_order_position db).

Definition orders_partition (db : Db) : Prop :=
  index_orders_working db ∩ index_orders_completed db = ∅.
Definition positions_partition (db : Db) : Prop :=
  index_positions_open db ∩ index_positions_closed db = ∅.

(** [adds_closed c db]: [c] is an [add_position] that passes its checks on
    [db] although the position's id is in positions-closed. Such an id can
    only have come from an [update_position] of a position that had not
    been added. *)
Definition adds_closed (c : Command) (db : Db) : bool :=
  match c with
  | AddPosition (Some position) (Some _) =>
      bool_decide (pos_id position ∈ index_positions_closed db)
      && bool_decide (¬ position_known position db)
  | _ => false
  end.

(** No command of the sequence, run from [db], is an [add_position] that is
    accepted for an id that positions-closed holds at that moment. *)
Fixpoint guarded (cmds : list Command) (db : Db) : bool :=
  match cmds with
  | [] => true
  | c :: cmds => negb (adds_closed c db) && guarded cmds (exec c db)
  end.

(** Identifiers and records of the worked examples. *)
Definition S1 : StrategyId := mkStrategyId "S1".
Definition strategy1 : TradingStrategy := mkTradingStrategy S1.
Definition O1 : ClientOrderId := mkClientOrderId "O1".
Definition P1 : PositionId := mkPositionId "P1".
Definition working_order1 : Order := mkOrder O1 true false.
Definition closed_position1 : Position := mkPosition P1 O1 true.
Definition P2 : PositionId := mkPositionId "P2".
Definition S2 : StrategyId := mkStrategyId "S2".
Definition order1 : Order := mkOrder O1 false false.
Definition position1 : Position := mkPosition P1 O1 false.

(** * The remaining methods and the vocabulary of their properties *)

(** ** The diagnostic methods of the base class *)

(** Modelled from the spec: the instrument identifier of a position
    ([Symbol], nautilus_trader.model.identifiers) is not in the source. It
    is an opaque, comparable, hashable value. A position's [symbol]
    attribute is taken as a function of the position. *)
Record Symbol := mkSymbol { symbol_value : string }.

Global Instance Symbol_eq_dec : EqDecision Symbol.
Proof. solve_decision. Defined.
Global Program Instance Symbol_countable : Countable Symbol :=
  inj_countable' symbol_value mkSymbol _.
Next Obligation. by intros []. Qed.

(** One round of the loop of [get_symbol_position_counts]:
    [if symbol not in counts: counts[symbol] = 0] and then
    [counts[symbol] += 1]. *)
Definition count_symbol (symbol : Symbol) (counts : gmap Symbol nat) : gmap Symbol nat :=
  let counts :=
    if decide (symbol ∈ dom counts) then counts else <[symbol := 0]> counts in
  alter (λ count, count + 1) symbol counts.

Definition get_symbol_position_counts (symbol : Position → Symbol) (db : Db)
    : gmap Symbol nat :=
  map_fold (λ _ position counts, count_symbol (symbol position) counts) ∅
    (cached_positions db).

(** [for item in items: self._log.warning(f"Residual {item}")], with the
    rendering of an item by [str] as a parameter. *)
Fixpoint warn_residuals {A} (str : A → string) (items : list A) : M unit :=
  match items with
  | [] => mret tt
  | item :: items =>
      log_at WARNING ("Residual " +:+ str item);; warn_residuals str items
  end.

(** How [check_residuals] ends: after both sweeps, or at a dict query that
    handed back no dict, where [.values()] has nothing to be called on and
    the method ends with an exception that is not a precondition
    violation. *)
Inductive Sweep :=
| Swept
| Aborted.

(** The values of a dict, in the order of its entries. *)
Definition values `{Countable K} {V} (records : gmap K V) : list V :=
  (map_to_list records).*2.

Definition check_residuals (str_order : Order → string)
    (str_position : Position → string) : M Sweep :=
  orders ← get_orders_working None;
  match orders with
  | Unassigned => mret Aborted
  | Bound orders =>
      warn_residuals str_order (values orders);;
      positions ← get_positions_open None;
      match positions with
      | Unassigned => mret Aborted
      | Bound positions =>
          warn_residuals str_position (values positions);;
          mret Swept
      end
  end.

(** ** Vocabulary *)

(** Two databases that agree on every dict and set, whatever was logged. *)
Definition same_data (db1 db2 : Db) : Prop :=
  set_log (λ _, []) db1 = set_log (λ _, []) db2.

Definition is_reset (c : Command) : bool :=
  match c with Reset => true | _ => false end.

Definition is_update_strategy (c : Command) : bool :=
  match c with UpdateStrategy _ => true | _ => false end.

Definition deletes (strategy_id : StrategyId) (c : Command) : bool :=
  match c with
  | DeleteStrategy (Some strategy) => bool_decide (strat_id strategy = strategy_id)
  | _ => false
  end.

(** Every set of a set-valued index is kept or extended. *)
Definition grows `{Countable K, Countable V} (index index' : gmap K (gset V)) : Prop :=
  ∀ key members, index !! key = Some members →
    ∃ members', index' !! key = Some members' ∧ members ⊆ members'.

(** What the commands keep of the records and of the set-once indices. *)
Definition extends (db db' : Db) : Prop :=
  cached_accounts db ⊆ cached_accounts db'
  ∧ cached_orders db ⊆ cached_orders db'
  ∧ cached_positions db ⊆ cached_positions db'
  ∧ index_order_position db ⊆ index_order_position db'
  ∧ index_order_strategy db ⊆ index_order_strategy db'
  ∧ index_position_strategy db ⊆ index_position_strategy db'
  ∧ index_orders db ⊆ index_orders db'
  ∧ index_positions db ⊆ index_positions db'
  ∧ grows (index_position_orders db) (index_position_orders db').

(** The agreements between the primary stores and the indices. *)
Definition orders_coherent (db : Db) : Prop :=
  index_orders db = dom (cached_orders db)
  ∧ index_orders db = dom (index_order_strategy db)
  ∧ (∀ key order, cached_orders db !! key = Some order → cl_ord_id order = key)
  ∧ (∀ s ids, index_strategy_orders db !! s = Some ids → ids ⊆ index_orders db).

Definition positions_coherent (db : Db) : Prop :=
  index_positions db = dom (cached_positions db)
  ∧ index_positions_open db ⊆ index_positions db
  ∧ index_positions db ⊆ dom (index_position_strategy db)
  ∧ (∀ key position, cached_positions db !! key = Some position →
       pos_id position = key
       ∧ ∃ ids, index_position_orders db !! key = Some ids ∧ from_order position ∈ ids).

Definition order_position_linked (db : Db) : Prop :=
  ∀ c p, index_order_position db !! c = Some p →
    ∃ ids, index_position_orders db !! p = Some ids ∧ c ∈ ids.

(** The number of cached positions of a symbol. *)
Definition positions_of (symbol : Position → Symbol) (s : Symbol)
    (positions : gmap PositionId Position) : nat :=
  size (filter (λ entry, symbol entry.2 = s) positions).

(** What a dict of counts holds for a number of occurrences: no entry for
    none, the number otherwise. *)
Definition counted (n : nat) : option nat :=
  match n with 0 => None | S _ => Some n end.

(** The entry that the residual sweep logs for an item. *)
Definition residual {A} (str : A → string) (item : A) : LogEntry :=
  mkLogEntry WARNING ("Residual " +:+ str item).

(** Every position of the positions set is open or closed. *)
Definition positions_classified (db : Db) : Prop :=
  index_positions db ⊆ index_positions_open db ∪ index_positions_closed db.

(** Symbols of the worked examples. *)
Definition AUDUSD : Symbol := mkSymbol "AUD/USD".
Definition GBPUSD : Symbol := mkSymbol "GBP/USD".
Definition symbol1 (position : Position) : Symbol :=
  if decide (pos_id position = P1) then AUDUSD else GBPUSD.
Definition position2 : Position := mkPosition P2 O1 false.
Definition account1 : Account := mkAccount (mkAccountId "A1").
Definition completed_order1 : Order := mkOrder O1 false true.

(** * Properties *)

(** Unfolds the monad so that a method applied to a database computes. *)
Ltac unfold_M :=
  cbv [mbind mret M_bind M_ret raise gets modify log_at
       Condition.not_none Condition.not_in Condition.is_in] in *.

(** ** Strategy filters and counts *)

Lemma filter_orders (base : Db → gset ClientOrderId) db s :
  match index_strategy_orders db !! s with
  | None => ∅
  | Some ids => base db ∩ ids
  end = base db ∩ strategy_orders s db.
Proof.
  unfold strategy_orders.
  destruct (index_strategy_orders db !! s); cbn; [done | by rewrite intersection_empty_r_L].
Qed.

Lemma filter_positions (base : Db → gset PositionId) db s :
  match index_strategy_positions db !! s with
  | None => ∅
  | Some ids => base db ∩ ids
  end = base db ∩ strategy_positions s db.
Proof.
  unfold strategy_positions.
  destruct (index_strategy_positions db !! s); cbn; [done | by rewrite intersection_empty_r_L].
Qed.

(** C2. Every id-set query called with a strategy filter S returns the
    intersection of its unfiltered result with the strategy-scoped set of S
    ([strategy→orders] for the order queries, [strategy→positions] for the
    position queries), and returns the empty set when S has no entry in
    that index. *)
Theorem strategy_filter_correct (db : Db) (s : StrategyId) :
  (get_order_ids (Some s) db = get_order_ids None db ∩ strategy_orders s db
   ∧ get_order_working_ids (Some s) db
     = get_order_working_ids None db ∩ strategy_orders s db
   ∧ get_order_completed_ids (Some s) db
     = get_order_completed_ids None db ∩ strategy_orders s db
   ∧ get_position_ids (Some s) db = get_position_ids None db ∩ strategy_positions s db
   ∧ get_position_open_ids (Some s) db
     = get_position_open_ids None db ∩ strategy_positions s db
   ∧ get_position_closed_ids (Some s) db
     = get_position_closed_ids None db ∩ strategy_positions s db)
  ∧ (index_strategy_orders db !! s = None →
     get_order_ids (Some s) db = ∅
     ∧ get_order_working_ids (Some s) db = ∅
     ∧ get_order_completed_ids (Some s) db = ∅)
  ∧ (index_strategy_positions db !! s = None →
     get_position_ids (Some s) db = ∅
     ∧ get_position_open_ids (Some s) db = ∅
     ∧ get_position_closed_ids (Some s) db = ∅).
Proof.
  split; [|split].
  - repeat split.
    + apply (filter_orders index_orders).
    + apply (filter_orders index_orders_working).
    + apply (filter_orders index_orders_completed).
    + apply (filter_positions index_positions).
    + apply (filter_positions index_positions_open).
    + apply (filter_positions index_positions_closed).
  - intros Hs. cbn. by rewrite Hs.
  - intros Hs. cbn. by rewrite Hs.
Qed.

Lemma strategy_filter_correct_unknown :
  get_order_ids (Some S1) init = ∅ ∧ get_position_ids (Some S1) init = ∅.
Proof.
  destruct (strategy_filter_correct init S1) as (_ & Ho & Hp).
  split; [apply Ho | apply Hp]; reflexivity.
Defined.

(** C9. With any strategy filter or none, each count query equals the
    number of elements of the corresponding id-set query. *)
Theorem count_consistency (db : Db) (filter : option StrategyId) :
  orders_total_count filter db = size (get_order_ids filter db)
  ∧ orders_working_count filter db = size (get_order_working_ids filter db)
  ∧ orders_completed_count filter db = size (get_order_completed_ids filter db)
  ∧ positions_total_count filter db = size (get_position_ids filter db)
  ∧ positions_open_count filter db = size (get_position_open_ids filter db)
  ∧ positions_closed_count filter db = size (get_position_closed_ids filter db).
Proof. repeat split. Qed.

(** ** Reset *)

Lemma reset_returns (db : Db) :
  reset db =
    (Returned tt,
     mkDb ∅ ∅ ∅ ∅ ∅ ∅ ∅ ∅ ∅ ∅ ∅ ∅ ∅ ∅ ∅ ∅
       (log db ++ [mkLogEntry DEBUG "Resetting..."; mkLogEntry DEBUG "Resetting...";
                   mkLogEntry INFO "Reset."])).
Proof.
  destruct db. unfold reset, _reset. unfold_M. cbn.
  by rewrite <- !(assoc_L (++)).
Qed.

(** C8. After [reset] every id-set query returns the empty set with any
    filter or none, every existence and state predicate returns false for
    every id, every count is zero, and every load or get lookup returns the
    absent result. *)
Theorem reset_clears (db : Db) :
  (reset db).1 = Returned tt
  ∧ let db' := (reset db).2 in
    get_strategy_ids db' = ∅
    ∧ (∀ filter,
        get_order_ids filter db' = ∅
        ∧ get_order_working_ids filter db' = ∅
        ∧ get_order_completed_ids filter db' = ∅
        ∧ get_position_ids filter db' = ∅
        ∧ get_position_open_ids filter db' = ∅
        ∧ get_position_closed_ids filter db' = ∅)
    ∧ (∀ cl_ord_id,
        order_exists (Some cl_ord_id) db' = (Returned false, db')
        ∧ is_order_working (Some cl_ord_id) db' = (Returned false, db')
        ∧ is_order_completed (Some cl_ord_id) db' = (Returned false, db')
        ∧ position_exists_for_order (Some cl_ord_id) db' = (Returned false, db')
        ∧ position_indexed_for_order (Some cl_ord_id) db' = (Returned false, db'))
    ∧ (∀ position_id,
        position_exists (Some position_id) db' = (Returned false, db')
        ∧ is_position_open (Some position_id) db' = (Returned false, db')
        ∧ is_position_closed (Some position_id) db' = (Returned false, db'))
    ∧ (∀ filter,
        orders_total_count filter db' = 0
        ∧ orders_working_count filter db' = 0
        ∧ orders_completed_count filter db' = 0
        ∧ positions_total_count filter db' = 0
        ∧ positions_open_count filter db' = 0
        ∧ positions_closed_count filter db' = 0)
    ∧ (∀ account_id,
        load_account (Some account_id) db' = (Returned None, db')
        ∧ get_account (Some account_id) db' = (Returned None, db'))
    ∧ (∀ cl_ord_id,
        load_order (Some cl_ord_id) db' = (Returned None, db')
        ∧ get_order (Some cl_ord_id) db' = (Returned None, db')
        ∧ get_position_id (Some cl_ord_id) db' = (Returned None, db')
        ∧ get_strategy_for_order (Some cl_ord_id) db' = (Returned None, db'))
    ∧ (∀ position_id,
        load_position (Some position_id) db' = (Returned None, db')
        ∧ get_position (Some position_id) db' = (Returned None, db')
        ∧ get_strategy_for_position (Some position_id) db' = (Returned None, db')).
Proof.
  rewrite reset_returns. cbn -[app]. split; [done|].
  split; [done|].
  split; [by intros [s|]|].
  split; [done|].
  split; [done|].
  split; [by intros [s|]|].
  done.
Qed.

(** ** Deleting a strategy *)

Lemma delete_if_present `{Countable K} {V} (k : K) (m : gmap K V) :
  (if decide (k ∈ dom m) then delete k m else m) = delete k m.
Proof.
  case_decide as Hk; [done|].
  symmetry. apply delete_id. by apply not_elem_of_dom.
Qed.

Lemma delete_strategy_returns (db : Db) (strategy : TradingStrategy) :
  strat_id strategy ∈ strategies db →
  delete_strategy (Some strategy) db =
    (Returned tt,
     set_log (λ l, l ++ [mkLogEntry DEBUG
                ("Deleted Strategy(id=" +:+ strategy_value (strat_id strategy) +:+ ").")])
       (set_index_strategy_positions (delete (strat_id strategy))
          (set_index_strategy_orders (delete (strat_id strategy))
             (set_strategies (λ ids, ids ∖ {[strat_id strategy]}) db)))).
Proof.
  intros Hin. destruct db. unfold delete_strategy. unfold_M. cbn in *.
  rewrite decide_True by done.
  do 2 case_decide; cbn; repeat f_equal;
    by rewrite <- delete_if_present, ?decide_True, ?decide_False by done.
Qed.

Lemma delete_strategy_unregistered (db : Db) (strategy : TradingStrategy) :
  strat_id strategy ∉ strategies db →
  delete_strategy (Some strategy) db
  = (Raised (NotRegistered "strategy.id" "strategies"), db).
Proof.
  intros Hin. unfold delete_strategy. unfold_M. cbn. by rewrite decide_False.
Qed.

(** C7. When S is a known strategy, [delete_strategy] returns, removes S
    from the known strategies and drops its [strategy→orders] and
    [strategy→positions] entries, so that [get_order_ids(S)] and
    [get_position_ids(S)] are empty afterwards; the three primary stores and
    every other index are unchanged, and every order and position is
    retrieved by id exactly as before. When S is not a known strategy,
    [delete_strategy] raises the not-registered precondition error. *)
Theorem delete_strategy_non_destructive (db : Db) (strategy : TradingStrategy) :
  (strat_id strategy ∈ strategies db →
   (delete_strategy (Some strategy) db).1 = Returned tt
   ∧ let db' := (delete_strategy (Some strategy) db).2 in
     strategies db' = strategies db ∖ {[strat_id strategy]}
     ∧ index_strategy_orders db' = delete (strat_id strategy) (index_strategy_orders db)
     ∧ index_strategy_positions db'
       = delete (strat_id strategy) (index_strategy_positions db)
     ∧ get_order_ids (Some (strat_id strategy)) db' = ∅
     ∧ get_position_ids (Some (strat_id strategy)) db' = ∅
     ∧ cached_accounts db' = cached_accounts db
     ∧ cached_orders db' = cached_orders db
     ∧ cached_positions db' = cached_positions db
     ∧ index_order_position db' = index_order_position db
     ∧ index_order_strategy db' = index_order_strategy db
     ∧ index_position_strategy db' = index_position_strategy db
     ∧ index_position_orders db' = index_position_orders db
     ∧ index_orders db' = index_orders db
     ∧ index_orders_working db' = index_orders_working db
     ∧ index_orders_completed db' = index_orders_completed db
     ∧ index_positions db' = index_positions db
     ∧ index_positions_open db' = index_positions_open db
     ∧ index_positions_closed db' = index_positions_closed db
     ∧ (∀ cl_ord_id,
         (get_order (Some cl_ord_id) db').1 = (get_order (Some cl_ord_id) db).1
         ∧ (load_order (Some cl_ord_id) db').1 = (load_order (Some cl_ord_id) db).1)
     ∧ (∀ position_id,
         (get_position (Some position_id) db').1 = (get_position (Some position_id) db).1
         ∧ (load_position (Some position_id) db').1
           = (load_position (Some position_id) db).1))
  ∧ (strat_id strategy ∉ strategies db →
     delete_strategy (Some strategy) db
     = (Raised (NotRegistered "strategy.id" "strategies"), db)).
Proof.
  split; [|apply delete_strategy_unregistered].
  intros Hin. rewrite delete_strategy_returns by done.
  destruct db; cbn.
  unfold get_order_ids, get_position_ids; cbn.
  rewrite !lookup_delete_eq. repeat split.
Qed.

Lemma delete_strategy_non_destructive_registered :
  let db := exec (UpdateStrategy (Some strategy1)) init in
  (delete_strategy (Some strategy1) db).1 = Returned tt
  ∧ strategies (delete_strategy (Some strategy1) db).2 = strategies db ∖ {[S1]}.
Proof.
  intros db.
  destruct (delete_strategy_non_destructive db strategy1) as [Hknown _].
  assert (Hin : strat_id strategy1 ∈ strategies db) by (vm_compute; set_solver).
  destruct (Hknown Hin) as (Hret & Hstrategies & _).
  split; [exact Hret | exact Hstrategies].
Defined.

(** ** Updates carry no existence check *)

(** C10. [update_order] and [update_position] do not consult the primary
    store: for a non-null working order, [update_order] returns and
    [is_order_working] is then true while [order_exists] answers as before
    (false for an order that was never added); for a non-null closed
    position, [update_position] returns and [is_position_closed] is then
    true while [position_exists] answers as before. *)
Theorem update_without_existence_check (db : Db) (order : Order) (position : Position) :
  (is_working order = true →
   (update_order (Some order) db).1 = Returned tt
   ∧ let db' := (update_order (Some order) db).2 in
     is_order_working (Some (cl_ord_id order)) db' = (Returned true, db')
     ∧ (order_exists (Some (cl_ord_id order)) db').1
       = (order_exists (Some (cl_ord_id order)) db).1)
  ∧ (is_closed position = true →
     (update_position (Some position) db).1 = Returned tt
     ∧ let db' := (update_position (Some position) db).2 in
       is_position_closed (Some (pos_id position)) db' = (Returned true, db')
       ∧ (position_exists (Some (pos_id position)) db').1
         = (position_exists (Some (pos_id position)) db).1).
Proof.
  split; intros Hstate; destruct db.
  - unfold update_order. unfold_M. cbn. rewrite Hstate. cbn.
    unfold is_order_working, order_exists. unfold_M. cbn.
    split; [done|]. split; [|done].
    rewrite bool_decide_eq_true_2; [done | set_solver].
  - unfold update_position. unfold_M. cbn. rewrite Hstate. cbn.
    unfold is_position_closed, position_exists. unfold_M. cbn.
    split; [done|]. split; [|done].
    rewrite bool_decide_eq_true_2; [done | set_solver].
Qed.

Lemma update_without_existence_check_never_added :
  ((order_exists (Some O1) init).1 = Returned false
   ∧ (is_order_working (Some O1) (update_order (Some working_order1) init).2).1
     = Returned true
   ∧ (order_exists (Some O1) (update_order (Some working_order1) init).2).1
     = Returned false)
  ∧ ((position_exists (Some P1) init).1 = Returned false
     ∧ (is_position_closed (Some P1) (update_position (Some closed_position1) init).2).1
       = Returned true
     ∧ (position_exists (Some P1) (update_position (Some closed_position1) init).2).1
       = Returned false).
Proof.
  destruct (update_without_existence_check init working_order1 closed_position1)
    as [Horder Hposition].
  split.
  - destruct (Horder eq_refl) as (_ & Hworking & Hexists).
    split; [reflexivity|]. split; [exact (f_equal fst Hworking) | exact Hexists].
  - destruct (Hposition eq_refl) as (_ & Hclosed & Hpexists).
    split; [reflexivity|]. split; [exact (f_equal fst Hclosed) | exact Hpexists].
Defined.

(** ** The index maintenance routine *)

Lemma index_position_id_returns (db : Db) p c s :
  index_position_id (Some p) (Some c) (Some s) db = (Returned tt, indexed p c s db).
Proof.
  destruct db. unfold index_position_id, indexed, set_once, conflict. unfold_M. cbn.
  destruct (index_order_position0 !! c) as [q|]; [destruct (decide (p = q))|]; cbn;
    (destruct (index_position_strategy0 !! p) as [t|]; [destruct (decide (s = t))|]);
    cbn; by rewrite ?app_nil_r, <- ?(assoc_L (++)).
Qed.

Lemma lookup_index_add `{Countable K, Countable V} (key : K) (member : V)
    (index : gmap K (gset V)) :
  index_add key member index !! key = Some (default ∅ (index !! key) ∪ {[member]}).
Proof.
  unfold index_add. destruct (index !! key) eqn:Hkey; rewrite lookup_insert_eq; cbn.
  - done.
  - by rewrite (left_id_L ∅ (∪)).
Qed.

Lemma lookup_index_add_ne `{Countable K, Countable V} (key key' : K) (member : V)
    (index : gmap K (gset V)) :
  key ≠ key' → index_add key member index !! key' = index !! key'.
Proof.
  intros Hne. unfold index_add. destruct (index !! key); by rewrite lookup_insert_ne.
Qed.

Lemma set_once_taken `{Countable K} {V} (key : K) (value indexed : V) (index : gmap K V) :
  index !! key = Some indexed → set_once key value index = index.
Proof. intros Hkey. unfold set_once. by rewrite Hkey. Qed.

Lemma conflict_logged `{Countable K} `{EqDecision V} (key : K) (value indexed : V)
    (index : gmap K V) (msg : string) :
  index !! key = Some indexed → indexed ≠ value →
  conflict key value index msg = [mkLogEntry ERROR msg].
Proof.
  intros Hkey Hne. unfold conflict. rewrite Hkey. by rewrite decide_False.
Qed.

(** C6 as stated fails on [strategy→orders]: with order O1 indexed to P1
    under S1, indexing (P2, O1, S2) meets the order→position conflict and
    returns, but leaves S2 without an entry in [strategy→orders]. *)
Lemma index_position_id_skips_strategy_orders :
  let db := exec (AddOrder (Some order1) (Some P1) (Some S1)) init in
  index_order_position db !! O1 = Some P1
  ∧ P1 ≠ P2
  ∧ (index_position_id (Some P2) (Some O1) (Some S2) db).1 = Returned tt
  ∧ ¬ unions_strategy_orders P2 O1 S2 db.
Proof.
  intros db. split; [by vm_compute|]. split; [done|]. split; [by vm_compute|].
  intros (ids & Hids & _). vm_compute in Hids. discriminate.
Qed.

(** C6, amended. With all three arguments non-null, [index_position_id]
    always returns. An order already mapped to a position keeps its
    [order→position] entry, and one ERROR entry is logged when that position
    differs from the one supplied; a position already mapped to a strategy
    keeps its [position→strategy] entry, with one ERROR entry logged when
    that strategy differs. Whether or not there was a conflict, the order is
    unioned into [position→orders] and the position into
    [strategy→positions]; [strategy→orders] is not touched by the routine. *)
Theorem index_position_id_set_once (db : Db) (p : PositionId) (c : ClientOrderId)
    (s : StrategyId) :
  (index_position_id (Some p) (Some c) (Some s) db).1 = Returned tt
  ∧ let db' := (index_position_id (Some p) (Some c) (Some s) db).2 in
    (∀ q, index_order_position db !! c = Some q →
       index_order_position db' = index_order_position db
       ∧ (q ≠ p → ∃ entries, log db' = log db ++ entries
                   ∧ mkLogEntry ERROR (order_conflict_msg p) ∈ entries))
    ∧ (∀ t, index_position_strategy db !! p = Some t →
       index_position_strategy db' = index_position_strategy db
       ∧ (t ≠ s → ∃ entries, log db' = log db ++ entries
                   ∧ mkLogEntry ERROR (strategy_conflict_msg p) ∈ entries))
    ∧ index_position_orders db' !! p
      = Some (default ∅ (index_position_orders db !! p) ∪ {[c]})
    ∧ (∀ p', p ≠ p' → index_position_orders db' !! p' = index_position_orders db !! p')
    ∧ index_strategy_positions db' !! s
      = Some (default ∅ (index_strategy_positions db !! s) ∪ {[p]})
    ∧ (∀ s', s ≠ s' →
       index_strategy_positions db' !! s' = index_strategy_positions db !! s')
    ∧ index_strategy_orders db' = index_strategy_orders db.
Proof.
  rewrite index_position_id_returns. split; [done|].
  destruct db; cbn.
  split; [|split; [|split; [|split; [|split; [|split]]]]].
  - intros q Hq. split; [by eapply set_once_taken|].
    intros Hne. eexists. split; [done|].
    rewrite (conflict_logged _ _ _ _ _ Hq Hne). set_solver.
  - intros t Ht. split; [by eapply set_once_taken|].
    intros Hne. eexists. split; [done|].
    rewrite (conflict_logged _ _ _ _ (strategy_conflict_msg p) Ht Hne). set_solver.
  - apply lookup_index_add.
  - intros p' Hne. by apply lookup_index_add_ne.
  - apply lookup_index_add.
  - intros s' Hne. by apply lookup_index_add_ne.
  - done.
Qed.

Lemma index_position_id_set_once_conflict :
  let db := exec (AddOrder (Some order1) (Some P1) (Some S1)) init in
  let db' := (index_position_id (Some P2) (Some O1) (Some S2) db).2 in
  index_order_position db' !! O1 = Some P1
  ∧ (∃ entries, log db' = log db ++ entries
       ∧ mkLogEntry ERROR (order_conflict_msg P2) ∈ entries)
  ∧ index_position_orders db' !! P2 = Some {[O1]}.
Proof.
  intros db db'.
  destruct (index_position_id_set_once db P2 O1 S2) as (_ & Horder & _ & Horders & _).
  assert (Hq : index_order_position db !! O1 = Some P1) by (by vm_compute).
  destruct (Horder P1 Hq) as [Hkept Hlogged].
  split; [|split].
  - fold db' in Hkept. by rewrite Hkept.
  - apply Hlogged. discriminate.
  - fold db' in Horders. rewrite Horders. by vm_compute.
Defined.

(** ** Adding records *)

Local Arguments index_position_id : simpl never.

Lemma add_account_returns (db : Db) account :
  ¬ account_known account db →
  add_account (Some account) db = (Returned tt, account_added account db).
Proof.
  unfold account_known. intros Hnew. unfold add_account. unfold_M. cbn.
  by rewrite decide_False.
Qed.

Lemma add_account_raises (db : Db) account :
  account_known account db →
  add_account (Some account) db
  = (Raised (DuplicateIdentifier "account.id" "cached_accounts"), db).
Proof.
  unfold account_known. intros Hold. unfold add_account. unfold_M. cbn.
  by rewrite decide_True.
Qed.

Lemma add_order_returns (db : Db) order position_id strategy_id :
  ¬ order_known order db →
  add_order (Some order) (Some position_id) (Some strategy_id) db
  = (Returned tt, order_added order position_id strategy_id db).
Proof.
  unfold order_known. intros Hnew.
  unfold add_order, order_added. unfold_M. cbn.
  rewrite !decide_False by tauto. cbn.
  destruct (is_null position_id); [done|].
  by rewrite index_position_id_returns.
Qed.

Lemma add_order_raises (db : Db) order position_id strategy_id :
  order_known order db →
  ∃ e, add_order (Some order) (Some position_id) (Some strategy_id) db = (Raised e, db).
Proof.
  unfold order_known. intros Hold. unfold add_order. unfold_M. cbn.
  repeat (case_decide; [by eexists|]). tauto.
Qed.

Lemma add_position_returns (db : Db) position strategy_id :
  ¬ position_known position db →
  add_position (Some position) (Some strategy_id) db
  = (Returned tt, position_added position strategy_id db).
Proof.
  unfold position_known. intros Hnew.
  unfold add_position, position_added. unfold_M. cbn.
  rewrite !decide_False by tauto. cbn.
  by rewrite index_position_id_returns.
Qed.

Lemma add_position_raises (db : Db) position strategy_id :
  position_known position db →
  ∃ e, add_position (Some position) (Some strategy_id) db = (Raised e, db).
Proof.
  unfold position_known. intros Hold. unfold add_position. unfold_M. cbn.
  repeat (case_decide; [by eexists|]). tauto.
Qed.

(** C4. [add_order] raises a precondition error exactly when an argument is
    null or the order's [cl_ord_id] is already in the primary order store,
    the orders set, [order→position] or [order→strategy]; [add_position]
    exactly when an argument is null or the position's id is already in the
    primary position store, the positions set or positions-open;
    [add_account] exactly when the account is null or its id is already in
    the primary account store. *)
Theorem add_fails_iff (db : Db) :
  (∀ order position_id strategy_id,
     failed (add_order order position_id strategy_id db)
     ↔ order = None ∨ position_id = None ∨ strategy_id = None
       ∨ ∃ o, order = Some o ∧ order_known o db)
  ∧ (∀ position strategy_id,
     failed (add_position position strategy_id db)
     ↔ position = None ∨ strategy_id = None
       ∨ ∃ p, position = Some p ∧ position_known p db)
  ∧ (∀ account,
     failed (add_account account db)
     ↔ account = None ∨ ∃ a, account = Some a ∧ account_known a db).
Proof.
  split; [|split].
  - intros [o|] [p|] [s|]; try (cbn; split; [intros _; auto | done]).
    destruct (decide (order_known o db)) as [Hold|Hnew].
    + destruct (add_order_raises db o p s Hold) as [e ->]. cbn.
      split; [intros _; do 3 right; eauto | done].
    + rewrite add_order_returns by done. cbn.
      split; [done | by intros [?|[?|[?|(o' & [= <-] & ?)]]]].
  - intros [p|] [s|]; try (cbn; split; [intros _; auto | done]).
    destruct (decide (position_known p db)) as [Hold|Hnew].
    + destruct (add_position_raises db p s Hold) as [e ->]. cbn.
      split; [intros _; do 2 right; eauto | done].
    + rewrite add_position_returns by done. cbn.
      split; [done | by intros [?|[?|(p' & [= <-] & ?)]]].
  - intros [a|]; try (cbn; split; [intros _; auto | done]).
    destruct (decide (account_known a db)) as [Hold|Hnew].
    + rewrite add_account_raises by done. cbn.
      split; [intros _; right; eauto | done].
    + rewrite add_account_returns by done. cbn.
      split; [done | by intros [?|(a' & [= <-] & ?)]].
Qed.

Lemma add_fails_iff_duplicate :
  let db := exec (AddOrder (Some order1) (Some P1) (Some S1)) init in
  failed (add_order (Some order1) (Some P2) (Some S2) db)
  ∧ failed (add_order None (Some P2) (Some S2) db).
Proof.
  intros db. destruct (add_fails_iff db) as (Horder & _ & _).
  split; apply Horder.
  - do 3 right. exists order1. split; [done|]. left. by vm_compute.
  - by left.
Defined.

(** ** Dict-returning queries *)

Lemma comprehension_complete `{Countable K} {V} (cache : gmap K V) (ids : list K)
    (built : gmap K V) :
  (∀ key, key ∈ ids → is_Some (cache !! key)) →
  ∃ records, comprehension cache ids built = inr records
    ∧ ∀ key, records !! key = if decide (key ∈ ids) then cache !! key else built !! key.
Proof.
  revert built. induction ids as [|id ids IH]; intros built Hbacked; cbn.
  - exists built. split; [done|]. intros key. rewrite decide_False; [done|].
    apply not_elem_of_nil.
  - destruct (Hbacked id) as [record Hrecord]; [by left|]. rewrite Hrecord.
    destruct (IH (<[id := record]> built)) as (records & -> & Hrecords).
    { intros key Hkey. apply Hbacked. by right. }
    exists records. split; [done|]. intros key. rewrite Hrecords.
    destruct (decide (key ∈ ids)) as [Hin|Hout].
    + rewrite decide_True; [done | by right].
    + destruct (decide (key = id)) as [->|Hne].
      * rewrite lookup_insert_eq, decide_True; [done | by left].
      * rewrite lookup_insert_ne by done. rewrite decide_False; [done|].
        by intros [?|?]%elem_of_cons.
Qed.

Lemma comprehension_defect `{Countable K} {V} (cache : gmap K V) (ids : list K)
    (built : gmap K V) :
  (∃ key, key ∈ ids ∧ cache !! key = None) →
  ∃ key, comprehension cache ids built = inl key ∧ key ∈ ids ∧ cache !! key = None.
Proof.
  revert built. induction ids as [|id ids IH]; intros built (key & Hkey & Hmissing); cbn.
  - by apply elem_of_nil in Hkey.
  - destruct (cache !! id) as [record|] eqn:Hid.
    + destruct (IH (<[id := record]> built)) as (key' & -> & Hin & Hnone).
      { exists key. split; [|done].
        apply elem_of_cons in Hkey as [->|Hkey]; [congruence | done]. }
      exists key'. split; [done|]. split; [by right | done].
    + exists id. split; [done|]. split; [by left | done].
Qed.

(** When every id has a backing record, the projection binds the result to
    the mapping of the contract and logs nothing. *)
Lemma project_complete `{Countable K} {V} (render : K → string) (prefix : string)
    (ids : gset K) (cache : gmap K V) (db : Db) :
  (∀ key, key ∈ ids → is_Some (cache !! key)) →
  project render prefix ids cache db = (Returned (Bound (partial_mapping ids cache)), db).
Proof.
  intros Hbacked. unfold project.
  destruct (comprehension_complete cache (elements ids) ∅) as (records & -> & Hrecords).
  { intros key Hkey. apply Hbacked. by apply elem_of_elements. }
  unfold_M. do 3 f_equal. apply map_eq. intros key.
  rewrite Hrecords. unfold partial_mapping.
  destruct (decide (key ∈ elements ids)) as [Hin|Hout].
  - apply elem_of_elements in Hin.
    destruct (cache !! key) as [record|] eqn:Hkey; symmetry.
    + by apply map_lookup_filter_Some.
    + apply map_lookup_filter_None. left. done.
  - rewrite lookup_empty. symmetry. apply map_lookup_filter_None. right.
    intros record _ Hin. apply Hout. by apply elem_of_elements.
Qed.

(** When some id lacks a backing record, the comprehension raises before
    the assignment: one ERROR entry is logged and the result local is
    still unassigned at [return]. *)
Lemma project_defect `{Countable K} {V} (render : K → string) (prefix : string)
    (ids : gset K) (cache : gmap K V) (db : Db) :
  (∃ key, key ∈ ids ∧ cache !! key = None) →
  ∃ key, key ∈ ids ∧ cache !! key = None
    ∧ project render prefix ids cache db
      = (Returned Unassigned,
         set_log (λ l, l ++ [mkLogEntry ERROR (prefix +:+ render key)]) db).
Proof.
  intros (key & Hkey & Hmissing). unfold project.
  destruct (comprehension_defect cache (elements ids) ∅) as (key' & -> & Hin & Hnone).
  { exists key. split; [by apply elem_of_elements | done]. }
  exists key'. split; [by apply elem_of_elements|]. split; [done|].
  by unfold_M.
Qed.

(** C3, evaluated on the code. After [update_order] of a working order that
    was never added, orders-working holds O1 and the primary store holds no
    record for it. [get_orders_working()] then logs one ERROR entry and
    reaches [return] with its result unassigned: no mapping comes back,
    whereas the mapping of the ids that do have records is the empty
    dict. The same happens to [get_positions_closed()] after
    [update_position] of a closed position that was never added. *)
Theorem dict_query_defect_unassigned :
  let db := exec (UpdateOrder (Some working_order1)) init in
  let db' := exec (UpdatePosition (Some closed_position1)) init in
  get_order_working_ids None db = {[O1]}
  ∧ cached_orders db !! O1 = None
  ∧ partial_mapping (get_order_working_ids None db) (cached_orders db) = ∅
  ∧ get_orders_working None db
    = (Returned Unassigned,
       set_log (λ l, l ++ [mkLogEntry ERROR "Cannot find Order object in cache O1"]) db)
  ∧ get_position_closed_ids None db' = {[P1]}
  ∧ cached_positions db' !! P1 = None
  ∧ partial_mapping (get_position_closed_ids None db') (cached_positions db') = ∅
  ∧ get_positions_closed None db'
    = (Returned Unassigned,
       set_log (λ l, l ++ [mkLogEntry ERROR "Cannot find Position object in cache P1"]) db').
Proof.
  intros db db'.
  assert (Hids : get_order_working_ids None db = {[O1]}) by (cbn; apply (left_id_L ∅ (∪))).
  assert (Hids' : get_position_closed_ids None db' = {[P1]})
    by (cbn; apply (left_id_L ∅ (∪))).
  split; [done|]. split; [done|]. split; [apply map_filter_empty|].
  split; [|split; [done|]; split; [done|]; split; [apply map_filter_empty|]].
  - unfold get_orders_working. unfold_M. rewrite Hids.
    unfold project. by rewrite elements_singleton.
  - unfold get_positions_closed. unfold_M. rewrite Hids'.
    unfold project. by rewrite elements_singleton.
Qed.

(** ** Command sequences as a labelled transition system *)

Lemma set_log_nil (db : Db) : set_log (λ l, l ++ []) db = db.
Proof. destruct db. cbn. by rewrite app_nil_r. Qed.

Lemma exec_transition (c : Command) (db : Db) : transition c db (exec c db).
Proof.
  unfold exec. destruct c as [[a|]|[o|] [p|] [s|]|[p|] [s|]|a|[s|]|[o|]|[p|]|[s|]|[s|]| |];
    cbn [command]; try (by eapply raised_transition).
  - destruct (decide (account_known a db)).
    + rewrite add_account_raises by done. by eapply raised_transition, add_account_raises.
    + rewrite add_account_returns by done. by constructor.
  - destruct (decide (order_known o db)) as [Hold|Hnew].
    + destruct (add_order_raises db o p s Hold) as [e He]. rewrite He.
      by eapply raised_transition.
    + rewrite add_order_returns by done. by constructor.
  - destruct (decide (position_known p db)) as [Hold|Hnew].
    + destruct (add_position_raises db p s Hold) as [e He]. rewrite He.
      by eapply raised_transition.
    + rewrite add_position_returns by done. by constructor.
  - cbn. rewrite <- (set_log_nil db) at 2. apply logged_transition.
  - apply update_strategy_transition.
  - replace (update_order (Some o) db).2 with (order_updated o db);
      [apply update_order_transition|].
    unfold update_order, order_updated. unfold_M.
    by destruct (is_working o), (is_completed o).
  - replace (update_position (Some p) db).2 with (position_updated p db);
      [apply update_position_transition|].
    unfold update_position, position_updated. unfold_M.
    by destruct (is_closed p).
  - apply logged_transition.
  - destruct (decide (strat_id s ∈ strategies db)).
    + rewrite delete_strategy_returns by done. by constructor.
    + rewrite delete_strategy_unregistered by done.
      by eapply raised_transition, delete_strategy_unregistered.
  - rewrite reset_returns. apply reset_transition.
  - apply logged_transition.
Qed.

(** An invariant that holds initially and is kept by every transition
    holds after every command of every sequence. *)
Lemma states_invariant (Inv : Db → Prop) (cmds : list Command) (db : Db) :
  (∀ c db db', transition c db db' → Inv db → Inv db') →
  Inv db → Forall Inv (states cmds db).
Proof.
  intros Hkept. revert db. induction cmds as [|c cmds IH]; intros db Hdb; cbn.
  - constructor.
  - assert (Inv (exec c db)) by (eapply Hkept; [apply exec_transition | done]).
    constructor; [done | by apply IH].
Qed.

Lemma run_invariant (Inv : Db → Prop) (cmds : list Command) (db : Db) :
  (∀ c db db', transition c db db' → Inv db → Inv db') →
  Inv db → Inv (run cmds db).
Proof.
  intros Hkept. revert db. unfold run.
  induction cmds as [|c cmds IH]; intros db Hdb; cbn; [done|].
  apply IH. eapply Hkept; [apply exec_transition | done].
Qed.

Lemma reachable_invariant (Inv : Db → Prop) (db : Db) :
  (∀ c db db', transition c db db' → Inv db → Inv db') →
  Inv init → reachable db → Inv db.
Proof. intros Hkept Hinit [cmds ->]. by apply run_invariant. Qed.

(** ** Orders added with the NULL position id *)

Lemma dom_set_once `{Countable K} {V} (key : K) (value : V) (index : gmap K V) :
  dom (set_once key value index) = dom index ∪ {[key]}.
Proof.
  unfold set_once. destruct (index !! key) eqn:Hkey.
  - apply elem_of_dom_2 in Hkey. set_solver.
  - rewrite dom_insert_L. set_solver.
Qed.

Lemma indexed_position_orders_indexed (db : Db) p c s :
  position_orders_indexed db → position_orders_indexed (indexed p c s db).
Proof.
  unfold position_orders_indexed. destruct db; cbn. intros Hinv p' ids c' Hids Hc'.
  rewrite dom_set_once. destruct (decide (p = p')) as [<-|Hne].
  - rewrite lookup_index_add in Hids. injection Hids as <-.
    apply elem_of_union in Hc' as [Hold| ->%elem_of_singleton]; [|set_solver].
    destruct (index_position_orders0 !! p) as [old|] eqn:Hp; cbn in Hold.
    + apply elem_of_union_l. by eapply Hinv.
    + by apply not_elem_of_empty in Hold.
  - rewrite lookup_index_add_ne in Hids by done.
    apply elem_of_union_l. by eapply Hinv.
Qed.

Lemma transition_position_orders_indexed c db db' :
  transition c db db' → position_orders_indexed db → position_orders_indexed db'.
Proof.
  destruct 1 as [| | |o p s db _|p s db _| |o db|p db| |]; intros Hinv.
  - done.
  - by destruct db.
  - by destruct db.
  - unfold order_added. destruct (is_null p); [by destruct db|].
    apply indexed_position_orders_indexed. by destruct db.
  - unfold position_added.
    assert (position_orders_indexed
              (indexed (pos_id p) (from_order p) s
                 (set_index_positions_open (λ ids, ids ∪ {[pos_id p]})
                    (set_index_positions (λ ids, ids ∪ {[pos_id p]})
                       (set_cached_positions <[pos_id p := p]> db))))) as Hindexed.
    { apply indexed_position_orders_indexed. by destruct db. }
    revert Hindexed. generalize (from_order p) (pos_id p). intros c q.
    unfold indexed. by destruct db.
  - by destruct db.
  - unfold order_updated. destruct db. by destruct (is_working o), (is_completed o).
  - unfold position_updated. destruct db. by destruct (is_closed p).
  - by destruct db.
  - by intros p ids c' Hids.
Qed.

Lemma reachable_position_orders_indexed (db : Db) :
  reachable db → position_orders_indexed db.
Proof.
  apply reachable_invariant.
  - apply transition_position_orders_indexed.
  - by intros p ids c Hids.
Qed.

(** C5. On a reachable database, when [add_order] is given the NULL
    position id and a non-null strategy id and returns, the order's
    [cl_ord_id] is in no set of [position→orders] and [get_position_id]
    returns the absent result for it; [position→orders] and
    [order→position] are as before the call; and the order is in the
    primary store, the orders set, [order→strategy] and the strategy's
    entry of [strategy→orders]. *)
Theorem add_order_null_position (db : Db) (order : Order) (position_id : PositionId)
    (strategy_id : StrategyId) :
  reachable db →
  is_null position_id = true →
  (add_order (Some order) (Some position_id) (Some strategy_id) db).1 = Returned tt →
  let db' := (add_order (Some order) (Some position_id) (Some strategy_id) db).2 in
  (∀ p ids, index_position_orders db' !! p = Some ids → cl_ord_id order ∉ ids)
  ∧ get_position_id (Some (cl_ord_id order)) db' = (Returned None, db')
  ∧ index_position_orders db' = index_position_orders db
  ∧ index_order_position db' = index_order_position db
  ∧ cached_orders db' !! cl_ord_id order = Some order
  ∧ cl_ord_id order ∈ index_orders db'
  ∧ index_order_strategy db' !! cl_ord_id order = Some strategy_id
  ∧ ∃ ids, index_strategy_orders db' !! strategy_id = Some ids ∧ cl_ord_id order ∈ ids.
Proof.
  intros Hreachable Hnull Hreturned.
  apply reachable_position_orders_indexed in Hreachable.
  destruct (decide (order_known order db)) as [Hold|Hnew].
  { destruct (add_order_raises db order position_id strategy_id Hold) as [e He].
    by rewrite He in Hreturned. }
  rewrite add_order_returns by done. unfold order_added. rewrite Hnull.
  assert (index_order_position db !! cl_ord_id order = None) as Hfree.
  { apply not_elem_of_dom. unfold order_known in Hnew. tauto. }
  unfold get_position_id. unfold_M. destruct db; cbn in *.
  split; [|split; [by rewrite Hfree|]; split; [done|]; split; [done|]].
  { intros p ids Hids Hin. apply (Hreachable p ids _ Hids) in Hin.
    by apply not_elem_of_dom in Hfree. }
  split; [by rewrite lookup_insert_eq|]. split; [set_solver|].
  split; [by rewrite lookup_insert_eq|].
  eexists. split; [apply lookup_index_add | set_solver].
Qed.

Lemma add_order_null_position_fresh :
  let db' := (add_order (Some order1) (Some null_position_id) (Some S1) init).2 in
  (∀ p ids, index_position_orders db' !! p = Some ids → O1 ∉ ids)
  ∧ get_position_id (Some O1) db' = (Returned None, db')
  ∧ cached_orders db' !! O1 = Some order1
  ∧ O1 ∈ index_orders db'.
Proof.
  intros db'.
  assert (reachable init) as Hreachable by (by exists []).
  destruct (add_order_null_position init order1 null_position_id S1 Hreachable eq_refl eq_refl)
    as (Horders & Hposition & _ & _ & Hcached & Hin & _).
  split; [exact Horders|]. split; [exact Hposition|]. split; [exact Hcached | exact Hin].
Defined.

(** ** The partition invariants *)

Lemma transition_orders_partition c db db' :
  transition c db db' → orders_partition db → orders_partition db'.
Proof.
  unfold orders_partition.
  destruct 1 as [| | |o p s db _|p s db _| |o db|p db| |]; intros Hinv.
  - done.
  - by destruct db.
  - by destruct db.
  - unfold order_added, indexed. destruct (is_null p); by destruct db.
  - unfold position_added, indexed. by destruct db.
  - by destruct db.
  - unfold order_updated. destruct db; cbn in *.
    destruct (is_working o), (is_completed o); cbn; set_solver.
  - unfold position_updated. destruct db. by destruct (is_closed p).
  - by destruct db.
  - cbn. apply intersection_empty_l_L.
Qed.

Lemma transition_positions_partition c db db' :
  transition c db db' → adds_closed c db = false →
  positions_partition db → positions_partition db'.
Proof.
  unfold positions_partition.
  destruct 1 as [| | |o p s db _|p s db Hnew| |o db|p db| |]; intros Hguard Hinv.
  - done.
  - by destruct db.
  - by destruct db.
  - unfold order_added, indexed. destruct (is_null p); by destruct db.
  - cbn in Hguard. rewrite (bool_decide_eq_true_2 (¬ position_known p db)) in Hguard by done.
    rewrite andb_true_r in Hguard. apply bool_decide_eq_false in Hguard.
    unfold position_added, indexed. destruct db; cbn in *. set_solver.
  - by destruct db.
  - unfold order_updated. destruct db. by destruct (is_working o), (is_completed o).
  - unfold position_updated. destruct db; cbn in *.
    destruct (is_closed p); cbn; set_solver.
  - by destruct db.
  - cbn. apply intersection_empty_l_L.
Qed.

Lemma guarded_positions_partition (cmds : list Command) (db : Db) :
  guarded cmds db = true → positions_partition db →
  Forall positions_partition (states cmds db).
Proof.
  revert db. induction cmds as [|c cmds IH]; intros db Hguarded Hdb; cbn.
  - constructor.
  - cbn in Hguarded. apply andb_true_iff in Hguarded as [Hc Hcmds].
    apply negb_true_iff in Hc.
    assert (positions_partition (exec c db))
      by (eapply transition_positions_partition; [apply exec_transition | done..]).
    constructor; [done | by apply IH].
Qed.

(** C1 as stated fails for positions: on a fresh store, [update_position]
    of a closed position P1 that was never added puts P1 in
    positions-closed, and the following [add_position] of P1 passes its
    three duplication checks and puts P1 in positions-open as well. *)
Lemma positions_partition_broken :
  let cmds := [UpdatePosition (Some closed_position1);
               AddPosition (Some position1) (Some S1)] in
  P1 ∈ index_positions_open (run cmds init)
  ∧ P1 ∈ index_positions_closed (run cmds init)
  ∧ ¬ Forall (λ db, orders_partition db ∧ positions_partition db) (states cmds init).
Proof.
  intros cmds.
  assert (P1 ∈ index_positions_open (run cmds init)) as Hopen by (by vm_compute).
  assert (P1 ∈ index_positions_closed (run cmds init)) as Hclosed by (by vm_compute).
  split; [done|]. split; [done|].
  intros Hall. apply Forall_cons in Hall as [_ Hall].
  apply Forall_cons in Hall as [[_ Hpositions] _].
  unfold positions_partition in Hpositions.
  assert (P1 ∈ (∅ : gset PositionId)) as Hin
    by (rewrite <- Hpositions; by apply elem_of_intersection).
  by apply not_elem_of_empty in Hin.
Qed.

(** C1, amended. From a fresh store, after every command of every sequence
    orders-working and orders-completed are disjoint; and positions-open
    and positions-closed are disjoint after every command of every
    sequence in which no [add_position] is accepted for a position whose id
    is in positions-closed at that moment. *)
Theorem partition_invariant (cmds : list Command) :
  Forall orders_partition (states cmds init)
  ∧ (guarded cmds init = true → Forall positions_partition (states cmds init)).
Proof.
  split.
  - apply states_invariant; [apply transition_orders_partition|].
    apply intersection_empty_l_L.
  - intros Hguarded. apply guarded_positions_partition; [done|].
    apply intersection_empty_l_L.
Qed.

Lemma partition_invariant_lifecycle :
  let cmds := [AddOrder (Some order1) (Some null_position_id) (Some S1);
               AddPosition (Some position1) (Some S1);
               UpdateOrder (Some working_order1);
               UpdatePosition (Some closed_position1);
               AddPosition (Some position1) (Some S1)] in
  Forall orders_partition (states cmds init)
  ∧ Forall positions_partition (states cmds init).
Proof.
  intros cmds. destruct (partition_invariant cmds) as [Horders Hpositions].
  split; [exact Horders | apply Hpositions; by vm_compute].
Defined.

(** ** A session *)

(** An order without position, its position, the close of the position and
    the removal of the registered strategy, observed through the queries. *)
Example session :
  let db1 := exec (AddOrder (Some order1) (Some null_position_id) (Some S1))
               (exec (UpdateStrategy (Some strategy1)) init) in
  let db2 := exec (AddPosition (Some position1) (Some S1)) db1 in
  let db3 := exec (UpdatePosition (Some closed_position1)) db2 in
  let db4 := exec (DeleteStrategy (Some strategy1)) db3 in
  (order_exists (Some O1) db1).1 = Returned true
  ∧ (get_position_id (Some O1) db1).1 = Returned None
  ∧ get_order_ids (Some S1) db1 = {[O1]}
  ∧ get_position_ids (Some S1) db2 = {[P1]}
  ∧ (is_position_open (Some P1) db2).1 = Returned true
  ∧ (get_position_id (Some O1) db2).1 = Returned (Some P1)
  ∧ positions_closed_count (Some S1) db3 = 1
  ∧ positions_open_count (Some S1) db3 = 0
  ∧ get_order_ids (Some S1) db4 = ∅
  ∧ (load_order (Some O1) db4).1 = Returned (Some order1).
Proof. by vm_compute. Qed.

(** * Further properties of the store *)

(** ** Failure leaves the database as it was *)

Lemma command_raises_or_returns (c : Command) (db : Db) :
  (∃ e, command c db = (Raised e, db)) ∨ (command c db).1 = Returned tt.
Proof.
  destruct c as [[a|]|[o|] [p|] [s|]|[p|] [s|]|a|[s|]|[o|]|[p|]|[s|]|[s|]| |];
    cbn [command]; try (by left; eexists).
  - destruct (decide (account_known a db)).
    + left. eexists. by apply add_account_raises.
    + right. by rewrite add_account_returns.
  - destruct (decide (order_known o db)) as [Hold|Hnew].
    + left. by apply add_order_raises.
    + right. by rewrite add_order_returns.
  - destruct (decide (position_known p db)) as [Hold|Hnew].
    + left. by apply add_position_raises.
    + right. by rewrite add_position_returns.
  - by right.
  - by right.
  - right. unfold update_order. unfold_M. by destruct (is_working o), (is_completed o).
  - right. unfold update_position. unfold_M. by destruct (is_closed p).
  - by right.
  - destruct (decide (strat_id s ∈ strategies db)).
    + right. by rewrite delete_strategy_returns.
    + left. eexists. by apply delete_strategy_unregistered.
  - right. by rewrite reset_returns.
  - by right.
Qed.

(** X1. A command that raises has changed nothing: every check of a
    command comes before its first write, and the index routine called by
    [add_order] and [add_position] after their writes cannot raise. *)
Theorem failed_command_unchanged (c : Command) (db : Db) :
  failed (command c db) → exec c db = db.
Proof.
  intros Hfailed. unfold exec.
  destruct (command_raises_or_returns c db) as [[e He]|Hreturned].
  - by rewrite He.
  - unfold failed in Hfailed. by rewrite Hreturned in Hfailed.
Qed.

Lemma failed_command_unchanged_duplicate :
  let db := exec (AddOrder (Some order1) (Some P1) (Some S1)) init in
  exec (AddOrder (Some order1) (Some P2) (Some S2)) db = db.
Proof.
  intros db. apply failed_command_unchanged. by vm_compute.
Defined.

(** ** Adding a record and reading it back *)

Lemma add_account_accepted (db : Db) account :
  (add_account (Some account) db).1 = Returned tt → ¬ account_known account db.
Proof. intros Hreturned Hold. by rewrite add_account_raises in Hreturned. Qed.

Lemma add_order_accepted (db : Db) order position_id strategy_id :
  (add_order (Some order) (Some position_id) (Some strategy_id) db).1 = Returned tt →
  ¬ order_known order db.
Proof.
  intros Hreturned Hold.
  destruct (add_order_raises db order position_id strategy_id Hold) as [e He].
  by rewrite He in Hreturned.
Qed.

Lemma add_position_accepted (db : Db) position strategy_id :
  (add_position (Some position) (Some strategy_id) db).1 = Returned tt →
  ¬ position_known position db.
Proof.
  intros Hreturned Hold.
  destruct (add_position_raises db position strategy_id Hold) as [e He].
  by rewrite He in Hreturned.
Qed.

Lemma lookup_set_once `{Countable K} {V} (key : K) (value : V) (index : gmap K V) :
  set_once key value index !! key = Some (default value (index !! key)).
Proof.
  unfold set_once. destruct (index !! key) eqn:Hkey; cbn; [done|].
  by rewrite lookup_insert_eq.
Qed.

Lemma lookup_set_once_ne `{Countable K} {V} (key key' : K) (value : V) (index : gmap K V) :
  key ≠ key' → set_once key value index !! key' = index !! key'.
Proof.
  intros Hne. unfold set_once. destruct (index !! key); [done|].
  by rewrite lookup_insert_ne.
Qed.

(** X2. After [add_account] has returned, [get_account] and [load_account]
    return the account for its id, and answer for every other id as
    before. *)
Theorem add_account_lookup (db : Db) (account : Account) :
  (add_account (Some account) db).1 = Returned tt →
  let db' := (add_account (Some account) db).2 in
  get_account (Some (acc_id account)) db' = (Returned (Some account), db')
  ∧ load_account (Some (acc_id account)) db' = (Returned (Some account), db')
  ∧ ∀ account_id, account_id ≠ acc_id account →
      (get_account (Some account_id) db').1 = (get_account (Some account_id) db).1
      ∧ (load_account (Some account_id) db').1 = (load_account (Some account_id) db).1.
Proof.
  intros Hnew%add_account_accepted. rewrite add_account_returns by done.
  unfold get_account, load_account. unfold_M. destruct db; cbn.
  rewrite lookup_insert_eq. split; [done|]. split; [done|].
  intros account_id Hne. by rewrite lookup_insert_ne.
Qed.

Lemma add_account_lookup_fresh :
  (get_account (Some (acc_id account1)) (add_account (Some account1) init).2).1
  = Returned (Some account1).
Proof.
  destruct (add_account_lookup init account1 eq_refl) as (Hget & _).
  exact (f_equal fst Hget).
Defined.

(** X3. After [add_order] has returned, whatever the position id, the order
    is read back by [get_order] and [load_order], [order_exists] is true,
    [get_strategy_for_order] returns the given strategy, and the order's id
    is in [get_order_ids] both unfiltered and filtered by that strategy. The
    order is not classified: [is_order_working] and [is_order_completed]
    answer as before the call, whatever the state of the order. Every other
    order id is looked up as before. *)
Theorem add_order_lookup (db : Db) (order : Order) (position_id : PositionId)
    (strategy_id : StrategyId) :
  (add_order (Some order) (Some position_id) (Some strategy_id) db).1 = Returned tt →
  let db' := (add_order (Some order) (Some position_id) (Some strategy_id) db).2 in
  let c := cl_ord_id order in
  get_order (Some c) db' = (Returned (Some order), db')
  ∧ load_order (Some c) db' = (Returned (Some order), db')
  ∧ order_exists (Some c) db' = (Returned true, db')
  ∧ get_strategy_for_order (Some c) db' = (Returned (Some strategy_id), db')
  ∧ c ∈ get_order_ids None db'
  ∧ c ∈ get_order_ids (Some strategy_id) db'
  ∧ (is_order_working (Some c) db').1 = (is_order_working (Some c) db).1
  ∧ (is_order_completed (Some c) db').1 = (is_order_completed (Some c) db).1
  ∧ ∀ c', c' ≠ c →
      (get_order (Some c') db').1 = (get_order (Some c') db).1
      ∧ (order_exists (Some c') db').1 = (order_exists (Some c') db).1
      ∧ (get_strategy_for_order (Some c') db').1 = (get_strategy_for_order (Some c') db).1.
Proof.
  intros Hnew%add_order_accepted. rewrite add_order_returns by done.
  unfold get_order, load_order, order_exists, get_strategy_for_order,
    is_order_working, is_order_completed, get_order_ids, order_added, indexed.
  unfold_M. destruct db, (is_null position_id); cbn.
  all: rewrite !lookup_insert_eq, lookup_index_add, bool_decide_eq_true_2 by set_solver.
  all: split_and!; try done; try set_solver.
  all: intros c' Hne; rewrite !lookup_insert_ne by done.
  all: split_and!; try done; f_equal; apply bool_decide_ext; set_solver.
Qed.

Lemma add_order_lookup_fresh :
  let db' := (add_order (Some working_order1) (Some P1) (Some S1) init).2 in
  (get_order (Some O1) db').1 = Returned (Some working_order1)
  ∧ (is_order_working (Some O1) db').1 = Returned false.
Proof.
  intros db'.
  destruct (add_order_lookup init working_order1 P1 S1 eq_refl)
    as (Hget & _ & _ & _ & _ & _ & Hworking & _).
  split; [exact (f_equal fst Hget) | exact Hworking].
Defined.

(** X4. After [add_order] has returned for a position id that is not NULL,
    [get_position_id] returns that position id for the order and
    [position_indexed_for_order] is true, but the position is not created:
    [position_exists] answers as before and [position_exists_for_order] is
    true exactly when the position had already been added. The position is
    listed under the strategy in [strategy→positions], and
    [get_strategy_for_position] returns the strategy the position was
    already indexed to, or else the given one. *)
Theorem add_order_indexes_position (db : Db) (order : Order) (position_id : PositionId)
    (strategy_id : StrategyId) :
  is_null position_id = false →
  (add_order (Some order) (Some position_id) (Some strategy_id) db).1 = Returned tt →
  let db' := (add_order (Some order) (Some position_id) (Some strategy_id) db).2 in
  let c := cl_ord_id order in
  get_position_id (Some c) db' = (Returned (Some position_id), db')
  ∧ position_indexed_for_order (Some c) db' = (Returned true, db')
  ∧ (position_exists (Some position_id) db').1 = (position_exists (Some position_id) db).1
  ∧ (position_exists_for_order (Some c) db').1 = (position_exists (Some position_id) db).1
  ∧ position_id ∈ strategy_positions strategy_id db'
  ∧ (get_strategy_for_position (Some position_id) db').1
    = Returned (Some (default strategy_id (index_position_strategy db !! position_id))).
Proof.
  intros Hnull Hnew%add_order_accepted. rewrite add_order_returns by done.
  assert (index_order_position db !! cl_ord_id order = None) as Hfree.
  { apply not_elem_of_dom. unfold order_known in Hnew. tauto. }
  unfold get_position_id, position_indexed_for_order, position_exists,
    position_exists_for_order, get_strategy_for_position, strategy_positions,
    order_added, indexed.
  rewrite Hnull. unfold_M. destruct db; cbn in *.
  rewrite !lookup_set_once, Hfree, lookup_index_add. cbn.
  rewrite bool_decide_eq_true_2 by (apply elem_of_dom; by rewrite lookup_set_once).
  split_and!; try done. set_solver.
Qed.

Lemma add_order_indexes_position_fresh :
  let db' := (add_order (Some order1) (Some P1) (Some S1) init).2 in
  (get_position_id (Some O1) db').1 = Returned (Some P1)
  ∧ (position_exists_for_order (Some O1) db').1 = Returned false.
Proof.
  intros db'.
  destruct (add_order_indexes_position init order1 P1 S1 eq_refl eq_refl)
    as (Hid & _ & _ & Hexists & _).
  split; [exact (f_equal fst Hid) | exact Hexists].
Defined.

(** X5. After [add_position] has returned, the position is read back by
    [get_position] and [load_position], [position_exists] and
    [is_position_open] are true, [is_position_closed] answers as before, and
    the position's id is in [get_position_ids] and [get_position_open_ids]
    both unfiltered and filtered by the given strategy. The set-once indices
    keep an earlier entry: [get_position_id] of the originating order returns
    the position that order was already indexed to, or else this one, and
    [get_strategy_for_position] returns the strategy the position was
    already indexed to, or else the given one. *)
Theorem add_position_lookup (db : Db) (position : Position) (strategy_id : StrategyId) :
  (add_position (Some position) (Some strategy_id) db).1 = Returned tt →
  let db' := (add_position (Some position) (Some strategy_id) db).2 in
  let p := pos_id position in
  get_position (Some p) db' = (Returned (Some position), db')
  ∧ load_position (Some p) db' = (Returned (Some position), db')
  ∧ position_exists (Some p) db' = (Returned true, db')
  ∧ is_position_open (Some p) db' = (Returned true, db')
  ∧ (is_position_closed (Some p) db').1 = (is_position_closed (Some p) db).1
  ∧ p ∈ get_position_ids None db'
  ∧ p ∈ get_position_ids (Some strategy_id) db'
  ∧ p ∈ get_position_open_ids (Some strategy_id) db'
  ∧ (get_position_id (Some (from_order position)) db').1
    = Returned (Some (default p (index_order_position db !! from_order position)))
  ∧ (get_strategy_for_position (Some p) db').1
    = Returned (Some (default strategy_id (index_position_strategy db !! p))).
Proof.
  intros Hnew%add_position_accepted. rewrite add_position_returns by done.
  unfold get_position, load_position, position_exists, is_position_open,
    is_position_closed, get_position_ids, get_position_open_ids, get_position_id,
    get_strategy_for_position, position_added, indexed.
  unfold_M. destruct db; cbn in *.
  rewrite !lookup_set_once, lookup_index_add, lookup_insert_eq,
    !bool_decide_eq_true_2 by set_solver.
  split_and!; try done; set_solver.
Qed.

Lemma add_position_lookup_conflict :
  let db := exec (AddOrder (Some order1) (Some P1) (Some S1)) init in
  let db' := (add_position (Some position2) (Some S2) db).2 in
  (get_position (Some P2) db').1 = Returned (Some position2)
  ∧ (is_position_open (Some P2) db').1 = Returned true
  ∧ (get_position_id (Some O1) db').1 = Returned (Some P1).
Proof.
  intros db db'.
  destruct (add_position_lookup db position2 S2 eq_refl)
    as (Hget & _ & _ & Hopen & _ & _ & _ & _ & Hid & _).
  split; [exact (f_equal fst Hget)|]. split; [exact (f_equal fst Hopen) | exact Hid].
Defined.

(** ** What the commands keep *)

Lemma set_once_subseteq `{Countable K} {V} (key : K) (value : V) (index : gmap K V) :
  index ⊆ set_once key value index.
Proof.
  unfold set_once. destruct (index !! key) eqn:Hkey; [done|].
  by apply insert_subseteq.
Qed.

Lemma grows_refl `{Countable K, Countable V} (index : gmap K (gset V)) :
  grows index index.
Proof. intros key members Hkey. by exists members. Qed.

Lemma grows_trans `{Countable K, Countable V} (index1 index2 index3 : gmap K (gset V)) :
  grows index1 index2 → grows index2 index3 → grows index1 index3.
Proof.
  intros H12 H23 key members Hkey.
  destruct (H12 key members Hkey) as (members2 & Hkey2 & Hsub2).
  destruct (H23 key members2 Hkey2) as (members3 & Hkey3 & Hsub3).
  exists members3. split; [done|]. by etrans.
Qed.

Lemma index_add_grows `{Countable K, Countable V} (key : K) (member : V)
    (index : gmap K (gset V)) :
  grows index (index_add key member index).
Proof.
  intros key' members Hkey'. destruct (decide (key = key')) as [<-|Hne].
  - rewrite lookup_index_add, Hkey'. cbn. eexists. split; [done|]. set_solver.
  - rewrite lookup_index_add_ne by done. by exists members.
Qed.

Lemma extends_refl (db : Db) : extends db db.
Proof. unfold extends. split_and!; try done. apply grows_refl. Qed.

Lemma extends_trans (db1 db2 db3 : Db) :
  extends db1 db2 → extends db2 db3 → extends db1 db3.
Proof.
  unfold extends. intros (?&?&?&?&?&?&?&?&?) (?&?&?&?&?&?&?&?&?).
  split_and!; try (by etrans). by eapply grows_trans.
Qed.

Lemma indexed_extends (db : Db) p c s : extends db (indexed p c s db).
Proof.
  unfold extends, indexed. destruct db; cbn.
  split_and!; try done; try apply set_once_subseteq. apply index_add_grows.
Qed.

Ltac extends_unchanged :=
  unfold extends; cbn; split_and!; first [done | apply grows_refl].

Lemma extends_set_log (db : Db) f : extends db (set_log f db).
Proof. destruct db. extends_unchanged. Qed.

Lemma transition_extends c db db' :
  transition c db db' → is_reset c = false → extends db db'.
Proof.
  destruct 1 as [| |a db Hnew|o p s db Hnew|p s db Hnew| |o db|p db| |]; intros Hc.
  - apply extends_refl.
  - destruct db. extends_unchanged.
  - unfold account_known in Hnew. apply not_elem_of_dom in Hnew.
    destruct db; unfold extends; cbn in *.
    split_and!; try done; [by apply insert_subseteq | apply grows_refl].
  - unfold order_known in Hnew.
    assert (cached_orders db !! cl_ord_id o = None) by (apply not_elem_of_dom; tauto).
    assert (index_order_strategy db !! cl_ord_id o = None)
      by (apply not_elem_of_dom; tauto).
    unfold order_added.
    set (db1 := set_log _ (set_index_strategy_orders _ (set_index_order_strategy _
                  (set_index_orders _ (set_cached_orders _ db))))).
    apply (extends_trans db db1);
      [|destruct (is_null p); [apply extends_refl | apply indexed_extends]].
    subst db1. destruct db; unfold extends; cbn in *.
    split_and!; try done;
      [by apply insert_subseteq | by apply insert_subseteq | set_solver | apply grows_refl].
  - unfold position_known in Hnew.
    assert (cached_positions db !! pos_id p = None) by (apply not_elem_of_dom; tauto).
    unfold position_added.
    set (db1 := set_index_positions_open _ (set_index_positions _ (set_cached_positions _ db))).
    apply (extends_trans db db1);
      [|eapply extends_trans; [apply indexed_extends | apply extends_set_log]].
    subst db1. destruct db; unfold extends; cbn in *.
    split_and!; try done; [by apply insert_subseteq | set_solver | apply grows_refl].
  - destruct db. extends_unchanged.
  - unfold order_updated. destruct db, (is_working o), (is_completed o); extends_unchanged.
  - unfold position_updated. destruct db, (is_closed p); extends_unchanged.
  - destruct db. extends_unchanged.
  - done.
Qed.

Lemma run_keeps (cmds : list Command) (db : Db) :
  forallb (λ c, negb (is_reset c)) cmds = true → extends db (run cmds db).
Proof.
  unfold run. revert db. induction cmds as [|c cmds IH]; intros db Hcmds; cbn.
  - apply extends_refl.
  - cbn in Hcmds. apply andb_true_iff in Hcmds as [Hc%negb_true_iff Hcmds].
    eapply extends_trans; [|by apply IH].
    apply (transition_extends c); [apply exec_transition | done].
Qed.

(** X6. Append-only: along every sequence of commands without [reset], the
    three primary stores and the three set-once indices only gain entries
    (an entry, once present, keeps its value), the orders and positions sets
    only gain ids, and every set of [position→orders] only gains members. *)
Theorem run_extends (cmds : list Command) (db : Db) :
  forallb (λ c, negb (is_reset c)) cmds = true → extends db (run cmds db).
Proof.
  unfold run. revert db. induction cmds as [|c cmds IH]; intros db Hcmds; cbn.
  - apply extends_refl.
  - cbn in Hcmds. apply andb_true_iff in Hcmds as [Hc%negb_true_iff Hcmds].
    apply (extends_trans db (exec c db)); [|by apply IH].
    apply (transition_extends c); [apply exec_transition | done].
Qed.

Lemma exec_add_order_known (db : Db) order position_id strategy_id :
  (add_order (Some order) (Some position_id) (Some strategy_id) db).1 = Returned tt →
  cl_ord_id order
  ∈ index_orders (exec (AddOrder (Some order) (Some position_id) (Some strategy_id)) db).
Proof.
  intros Hnew%add_order_accepted. unfold exec. cbn [command].
  rewrite add_order_returns by done. unfold order_added, indexed.
  destruct db, (is_null position_id); cbn; set_solver.
Qed.

Lemma exec_add_position_known (db : Db) position strategy_id :
  (add_position (Some position) (Some strategy_id) db).1 = Returned tt →
  pos_id position
  ∈ index_positions (exec (AddPosition (Some position) (Some strategy_id)) db).
Proof.
  intros Hnew%add_position_accepted. unfold exec. cbn [command].
  rewrite add_position_returns by done. unfold position_added, indexed.
  destruct db; cbn; set_solver.
Qed.

Lemma exec_add_account_known (db : Db) account :
  (add_account (Some account) db).1 = Returned tt →
  cached_accounts (exec (AddAccount (Some account)) db) !! acc_id account = Some account.
Proof.
  intros Hnew%add_account_accepted. unfold exec. cbn [command].
  rewrite add_account_returns by done. destruct db; cbn. apply lookup_insert_eq.
Qed.

Lemma run_extends_session :
  let db := exec (AddOrder (Some order1) (Some P1) (Some S1)) init in
  let cmds := [AddPosition (Some position2) (Some S2);
               UpdateOrder (Some completed_order1);
               DeleteStrategy (Some strategy1)] in
  cached_orders (run cmds db) !! O1 = Some order1
  ∧ index_order_position (run cmds db) !! O1 = Some P1.
Proof.
  intros db cmds.
  destruct (run_extends cmds db eq_refl) as (_ & Horders & _ & Hposition & _).
  split.
  - eapply lookup_weaken; [|exact Horders]. by vm_compute.
  - eapply lookup_weaken; [|exact Hposition]. by vm_compute.
Defined.

(** X7. Uniqueness over time: once [add_order] has returned for an order,
    every later [add_order] of an order with the same [cl_ord_id] raises,
    whatever its other arguments and whatever commands other than [reset]
    ran in between; likewise for [add_position] and the position id, and for
    [add_account] and the account id. *)
Theorem added_once (cmds : list Command) (db : Db) :
  forallb (λ c, negb (is_reset c)) cmds = true →
  (∀ order position_id strategy_id order' position_id' strategy_id',
     (add_order (Some order) (Some position_id) (Some strategy_id) db).1 = Returned tt →
     cl_ord_id order' = cl_ord_id order →
     failed (add_order (Some order') position_id' strategy_id'
               (run cmds (exec (AddOrder (Some order) (Some position_id) (Some strategy_id)) db))))
  ∧ (∀ position strategy_id position' strategy_id',
     (add_position (Some position) (Some strategy_id) db).1 = Returned tt →
     pos_id position' = pos_id position →
     failed (add_position (Some position') strategy_id'
               (run cmds (exec (AddPosition (Some position) (Some strategy_id)) db))))
  ∧ (∀ account account',
     (add_account (Some account) db).1 = Returned tt →
     acc_id account' = acc_id account →
     failed (add_account (Some account')
               (run cmds (exec (AddAccount (Some account)) db)))).
Proof.
  intros Hcmds. split_and!.
  - intros o p s o' p' s' Hreturned Hsame.
    pose proof (exec_add_order_known db o p s Hreturned) as Hin.
    destruct (run_keeps cmds (exec (AddOrder (Some o) (Some p) (Some s)) db) Hcmds)
      as (_ & _ & _ & _ & _ & _ & Hids & _).
    destruct p' as [p'|], s' as [s'|]; try done.
    assert (order_known o' (run cmds (exec (AddOrder (Some o) (Some p) (Some s)) db)))
      as Hold by (right; left; rewrite Hsame; by apply Hids).
    destruct (add_order_raises _ o' p' s' Hold) as [e He]. by rewrite He.
  - intros p s p' s' Hreturned Hsame.
    pose proof (exec_add_position_known db p s Hreturned) as Hin.
    destruct (run_keeps cmds (exec (AddPosition (Some p) (Some s)) db) Hcmds)
      as (_ & _ & _ & _ & _ & _ & _ & Hids & _).
    destruct s' as [s'|]; try done.
    assert (position_known p' (run cmds (exec (AddPosition (Some p) (Some s)) db)))
      as Hold by (right; left; rewrite Hsame; by apply Hids).
    destruct (add_position_raises _ p' s' Hold) as [e He]. by rewrite He.
  - intros a a' Hreturned Hsame.
    pose proof (exec_add_account_known db a Hreturned) as Hget.
    destruct (run_keeps cmds (exec (AddAccount (Some a)) db) Hcmds) as (Haccounts & _).
    assert (account_known a' (run cmds (exec (AddAccount (Some a)) db))) as Hold.
    { unfold account_known. rewrite Hsame. apply elem_of_dom. exists a.
      by eapply lookup_weaken. }
    by rewrite add_account_raises.
Qed.

Lemma added_once_session :
  failed (add_order (Some working_order1) (Some P2) (Some S2)
            (run [UpdateOrder (Some completed_order1); DeleteStrategy (Some strategy1)]
               (exec (AddOrder (Some order1) (Some P1) (Some S1)) init))).
Proof.
  destruct (added_once [UpdateOrder (Some completed_order1); DeleteStrategy (Some strategy1)]
              init eq_refl) as (Horder & _).
  by apply (Horder order1 P1 S1 working_order1 (Some P2) (Some S2)).
Defined.

(** ** State transitions of orders and positions *)

(** X8. [update_order] files the order by its state, the working predicate
    first: a working order is never left in orders-completed, an order that
    is completed and not working ends in orders-completed and out of
    orders-working, and an order that is neither leaves the database
    unchanged. No other order id is moved, and a second [update_order] of
    the same order changes nothing more. *)
Theorem update_order_moves (db : Db) (order : Order) :
  let db' := (update_order (Some order) db).2 in
  let c := cl_ord_id order in
  (is_working order = true →
     is_order_working (Some c) db' = (Returned true, db')
     ∧ is_order_completed (Some c) db' = (Returned false, db'))
  ∧ (is_working order = false → is_completed order = true →
     is_order_working (Some c) db' = (Returned false, db')
     ∧ is_order_completed (Some c) db' = (Returned true, db'))
  ∧ (is_working order = false → is_completed order = false → db' = db)
  ∧ (∀ c', c' ≠ c →
     (is_order_working (Some c') db').1 = (is_order_working (Some c') db).1
     ∧ (is_order_completed (Some c') db').1 = (is_order_completed (Some c') db).1)
  ∧ (update_order (Some order) db').2 = db'.
Proof.
  unfold update_order, is_order_working, is_order_completed. unfold_M.
  destruct db, (is_working order), (is_completed order); cbn.
  all: split_and!; try done.
  all: try (intros _; split; do 2 f_equal;
            [apply bool_decide_eq_true_2 || apply bool_decide_eq_false_2
            |apply bool_decide_eq_true_2 || apply bool_decide_eq_false_2]; set_solver).
  all: try (intros _ _; split; do 2 f_equal;
            [apply bool_decide_eq_true_2 || apply bool_decide_eq_false_2
            |apply bool_decide_eq_true_2 || apply bool_decide_eq_false_2]; set_solver).
  all: try (intros c' Hne; split; f_equal; apply bool_decide_ext; set_solver).
  all: f_equal; set_solver.
Qed.

Lemma update_order_moves_completed :
  let db := exec (UpdateOrder (Some working_order1)) init in
  let db' := (update_order (Some completed_order1) db).2 in
  (is_order_working (Some O1) db').1 = Returned false
  ∧ (is_order_completed (Some O1) db').1 = Returned true.
Proof.
  intros db db'.
  destruct (update_order_moves db completed_order1) as (_ & Hcompleted & _).
  destruct (Hcompleted eq_refl eq_refl) as [Hworking Hdone].
  split; [exact (f_equal fst Hworking) | exact (f_equal fst Hdone)].
Defined.

(** X9. [update_position] of a closed position leaves its id in
    positions-closed and out of positions-open; [update_position] of a
    position that is not closed leaves the database unchanged, so it never
    puts an id back into positions-open. No other position id is moved, and
    a second [update_position] of the same position changes nothing more. *)
Theorem update_position_moves (db : Db) (position : Position) :
  let db' := (update_position (Some position) db).2 in
  let p := pos_id position in
  (is_closed position = true →
     is_position_closed (Some p) db' = (Returned true, db')
     ∧ is_position_open (Some p) db' = (Returned false, db'))
  ∧ (is_closed position = false → db' = db)
  ∧ (∀ p', p' ≠ p →
     (is_position_open (Some p') db').1 = (is_position_open (Some p') db).1
     ∧ (is_position_closed (Some p') db').1 = (is_position_closed (Some p') db).1)
  ∧ (update_position (Some position) db').2 = db'.
Proof.
  unfold update_position, is_position_open, is_position_closed. unfold_M.
  destruct db, (is_closed position); cbn.
  all: split_and!; try done.
  all: try (intros _; split; do 2 f_equal;
            [apply bool_decide_eq_true_2 | apply bool_decide_eq_false_2]; set_solver).
  all: try (intros p' Hne; split; f_equal; apply bool_decide_ext; set_solver).
  all: f_equal; set_solver.
Qed.

Lemma update_position_moves_closed :
  let db := exec (AddPosition (Some position1) (Some S1)) init in
  (is_position_open (Some P1) (update_position (Some closed_position1) db).2).1
  = Returned false
  ∧ (update_position (Some position1) db).2 = db.
Proof.
  intros db.
  destruct (update_position_moves db closed_position1) as (Hclosed & _).
  destruct (update_position_moves db position1) as (_ & Hopen & _).
  destruct (Hclosed eq_refl) as [_ Hnot_open].
  split; [exact (f_equal fst Hnot_open) | exact (Hopen eq_refl)].
Defined.

Lemma transition_stays_closed (p : PositionId) c db db' :
  transition c db db' → is_reset c = false →
  p ∈ index_positions db ∧ p ∉ index_positions_open db →
  p ∈ index_positions db' ∧ p ∉ index_positions_open db'.
Proof.
  destruct 1 as [| | |o q s db _|q s db Hnew| |o db|q db| |]; intros Hc Hclosed.
  - done.
  - by destruct db.
  - by destruct db.
  - unfold order_added, indexed. destruct (is_null q); by destruct db.
  - unfold position_known in Hnew. unfold position_added, indexed.
    destruct db; cbn in *. set_solver.
  - by destruct db.
  - unfold order_updated. destruct db. by destruct (is_working o), (is_completed o).
  - unfold position_updated. destruct db; cbn in *. destruct (is_closed q); cbn; set_solver.
  - by destruct db.
  - done.
Qed.

(** X10. A position that exists and is not open is never open again short
    of a [reset]: after every sequence of commands without [reset],
    [position_exists] is still true and [is_position_open] still false for
    it. In particular no [update_position] reopens a closed position, and
    the existing id cannot be added a second time. *)
Theorem position_never_reopens (cmds : list Command) (db : Db) (p : PositionId) :
  forallb (λ c, negb (is_reset c)) cmds = true →
  (position_exists (Some p) db).1 = Returned true →
  (is_position_open (Some p) db).1 = Returned false →
  (position_exists (Some p) (run cmds db)).1 = Returned true
  ∧ (is_position_open (Some p) (run cmds db)).1 = Returned false.
Proof.
  unfold position_exists, is_position_open. unfold_M. cbn.
  intros Hcmds [= Hexists%bool_decide_eq_true] [= Hopen%bool_decide_eq_false].
  assert (p ∈ index_positions (run cmds db) ∧ p ∉ index_positions_open (run cmds db))
    as [Hexists' Hopen'].
  { revert db Hexists Hopen. unfold run.
    induction cmds as [|c cmds IH]; intros db Hexists Hopen; cbn; [done|].
    cbn in Hcmds. apply andb_true_iff in Hcmds as [Hc%negb_true_iff Hcmds].
    destruct (transition_stays_closed p c db (exec c db)) as [? ?];
      [apply exec_transition | done..|].
    by apply IH. }
  by rewrite bool_decide_eq_true_2, bool_decide_eq_false_2.
Qed.

Lemma position_never_reopens_session :
  let db := run [AddPosition (Some position1) (Some S1);
                 UpdatePosition (Some closed_position1)] init in
  let cmds := [UpdatePosition (Some position1);
               AddPosition (Some position1) (Some S2);
               AddOrder (Some order1) (Some P1) (Some S1)] in
  (is_position_open (Some P1) (run cmds db)).1 = Returned false.
Proof.
  intros db cmds.
  by destruct (position_never_reopens cmds db P1 eq_refl eq_refl eq_refl) as [_ Hopen].
Defined.

(** ** Agreement of the indices on reachable databases *)

Lemma indexed_orders_coherent (db : Db) p c s :
  orders_coherent db → orders_coherent (indexed p c s db).
Proof. unfold orders_coherent, indexed. by destruct db. Qed.

Lemma transition_orders_coherent c db db' :
  transition c db db' → orders_coherent db → orders_coherent db'.
Proof.
  destruct 1 as [| | |o p s db Hnew|p s db _| |o db|p db|st db _|];
    intros (Hcached & Hstrategy & Hkeys & Hscoped).
  - done.
  - by destruct db.
  - by destruct db.
  - unfold order_added.
    set (db1 := set_log _ (set_index_strategy_orders _ (set_index_order_strategy _
                  (set_index_orders _ (set_cached_orders _ db))))).
    assert (orders_coherent db1) as Hdb1.
    { subst db1. unfold orders_coherent. destruct db; cbn in *.
      rewrite !dom_insert_L. split_and!; [set_solver..| |].
      - intros key order [[<- <-]|[_ Hkey]]%lookup_insert_Some; [done | by eapply Hkeys].
      - intros s' ids Hids. destruct (decide (s = s')) as [<-|Hne].
        + rewrite lookup_index_add in Hids. injection Hids as <-.
          destruct (index_strategy_orders0 !! s) as [old|] eqn:Hs; cbn; [|set_solver].
          apply Hscoped in Hs. set_solver.
        + rewrite lookup_index_add_ne in Hids by done. apply Hscoped in Hids. set_solver. }
    destruct (is_null p); [done | by apply indexed_orders_coherent].
  - unfold position_added, indexed, orders_coherent. by destruct db.
  - by destruct db.
  - unfold order_updated, orders_coherent.
    destruct db. by destruct (is_working o), (is_completed o).
  - unfold position_updated, orders_coherent. destruct db. by destruct (is_closed p).
  - unfold orders_coherent. destruct db; cbn in *. split_and!; try done.
    intros s ids [_ Hids]%lookup_delete_Some. by eapply Hscoped.
  - unfold orders_coherent. cbn. rewrite !dom_empty_L. split_and!; try done.
Qed.

Lemma reachable_orders_coherent (db : Db) : reachable db → orders_coherent db.
Proof.
  apply reachable_invariant; [apply transition_orders_coherent|].
  unfold orders_coherent. cbn. rewrite !dom_empty_L. split_and!; done.
Qed.

(** X11. On every database reached from a fresh store, the orders set, the
    keys of the primary order store and the keys of [order→strategy] are the
    same set, every cached order is stored under its own [cl_ord_id], and
    every set of [strategy→orders] holds only ids of the orders set. So
    [order_exists], a successful [get_order] and a successful
    [get_strategy_for_order] coincide. *)
Theorem orders_indices_agree (db : Db) : reachable db → orders_coherent db.
Proof.
  intros [cmds ->]. apply run_invariant; [apply transition_orders_coherent|].
  unfold orders_coherent. cbn. rewrite !dom_empty_L. split_and!; done.
Qed.

Lemma orders_indices_agree_session :
  let db := run [AddOrder (Some order1) (Some P1) (Some S1);
                 UpdateOrder (Some working_order1);
                 DeleteStrategy (Some strategy1)] init in
  index_orders db = dom (cached_orders db)
  ∧ index_orders db = dom (index_order_strategy db).
Proof.
  intros db.
  assert (reachable db) as Hreachable by (by eexists).
  destruct (orders_indices_agree db Hreachable) as (Hcached & Hstrategy & _).
  split; [exact Hcached | exact Hstrategy].
Defined.

Lemma indexed_positions_coherent (db : Db) p c s :
  positions_coherent db → positions_coherent (indexed p c s db).
Proof.
  unfold positions_coherent, indexed. destruct db; cbn.
  intros (Hcached & Hopen & Hstrategy & Hkeys). rewrite dom_set_once.
  split_and!; [done | done | set_solver |].
  intros key position Hkey. destruct (Hkeys key position Hkey) as (Hid & ids & Hids & Hin).
  split; [done|].
  destruct (index_add_grows p c index_position_orders0 key ids Hids) as (ids' & Hids' & Hsub).
  exists ids'. split; [done | set_solver].
Qed.

Lemma transition_positions_coherent c db db' :
  transition c db db' → positions_coherent db → positions_coherent db'.
Proof.
  destruct 1 as [| | |o p s db _|p s db Hnew| |o db|p db|st db _|]; intros Hinv.
  - done.
  - by destruct db.
  - by destruct db.
  - unfold order_added. destruct (is_null p); [by destruct db|].
    apply indexed_positions_coherent. by destruct db.
  - unfold position_added. destruct Hinv as (Hcached & Hopen & Hstrategy & Hkeys).
    unfold positions_coherent, indexed. destruct db; cbn in *.
    rewrite dom_set_once, dom_insert_L. split_and!; [set_solver..|].
    intros key position [[<- <-]|[Hne Hkey]]%lookup_insert_Some.
    + split; [done|]. rewrite lookup_index_add. eexists. split; [done | set_solver].
    + destruct (Hkeys key position Hkey) as (Hid & ids & Hids & Hin). split; [done|].
      rewrite lookup_index_add_ne by done. by exists ids.
  - by destruct db.
  - unfold order_updated, positions_coherent.
    destruct db. by destruct (is_working o), (is_completed o).
  - unfold position_updated, positions_coherent.
    destruct Hinv as (Hcached & Hopen & Hstrategy & Hkeys).
    destruct db; cbn in *. destruct (is_closed p); cbn; split_and!; try done. set_solver.
  - by destruct db.
  - unfold positions_coherent. cbn. rewrite !dom_empty_L. split_and!; done.
Qed.

Lemma reachable_positions_coherent (db : Db) : reachable db → positions_coherent db.
Proof.
  apply reachable_invariant; [apply transition_positions_coherent|].
  unfold positions_coherent. cbn. rewrite !dom_empty_L. split_and!; done.
Qed.

(** X12. On every database reached from a fresh store, the positions set
    and the keys of the primary position store are the same set,
    positions-open is a subset of it, every position of the set has an
    entry in [position→strategy], and every cached position is stored under
    its own id and lists its originating order in [position→orders]. *)
Theorem positions_indices_agree (db : Db) : reachable db → positions_coherent db.
Proof.
  intros [cmds ->]. apply run_invariant; [apply transition_positions_coherent|].
  unfold positions_coherent. cbn. rewrite !dom_empty_L. split_and!; done.
Qed.

Lemma positions_indices_agree_session :
  let db := run [AddPosition (Some position1) (Some S1);
                 UpdatePosition (Some closed_position1);
                 AddPosition (Some position2) (Some S2)] init in
  index_positions db = dom (cached_positions db)
  ∧ index_positions_open db ⊆ index_positions db.
Proof.
  intros db.
  assert (reachable db) as Hreachable by (by eexists).
  destruct (positions_indices_agree db Hreachable) as (Hcached & Hopen & _).
  split; [exact Hcached | exact Hopen].
Defined.

Lemma indexed_order_position_linked (db : Db) p c s :
  order_position_linked db → order_position_linked (indexed p c s db).
Proof.
  unfold order_position_linked, indexed. destruct db; cbn. intros Hinv c' p' Hc'.
  assert (∀ q, index_order_position0 !! c' = Some q →
            ∃ ids, index_add p c index_position_orders0 !! q = Some ids ∧ c' ∈ ids)
    as Hold.
  { intros q Hq. destruct (Hinv c' q Hq) as (ids & Hids & Hin).
    destruct (index_add_grows p c index_position_orders0 q ids Hids)
      as (ids' & Hids' & Hsub).
    exists ids'. split; [done | set_solver]. }
  destruct (decide (c = c')) as [<-|Hne].
  - rewrite lookup_set_once in Hc'. injection Hc' as <-.
    destruct (index_order_position0 !! c) as [q|] eqn:Hq; cbn; [by apply Hold|].
    rewrite lookup_index_add. eexists. split; [done | set_solver].
  - rewrite lookup_set_once_ne in Hc' by done. by apply Hold.
Qed.

Lemma transition_order_position_linked c db db' :
  transition c db db' → order_position_linked db → order_position_linked db'.
Proof.
  destruct 1 as [| | |o p s db _|p s db _| |o db|p db|st db _|]; intros Hinv.
  - done.
  - by destruct db.
  - by destruct db.
  - unfold order_added. destruct (is_null p); [by destruct db|].
    apply indexed_order_position_linked. by destruct db.
  - unfold position_added.
    assert (order_position_linked
              (indexed (pos_id p) (from_order p) s
                 (set_index_positions_open (λ ids, ids ∪ {[pos_id p]})
                    (set_index_positions (λ ids, ids ∪ {[pos_id p]})
                       (set_cached_positions <[pos_id p := p]> db))))) as Hindexed.
    { apply indexed_order_position_linked. by destruct db. }
    revert Hindexed. generalize (from_order p) (pos_id p). intros c q.
    unfold indexed. by destruct db.
  - by destruct db.
  - unfold order_updated. destruct db. by destruct (is_working o), (is_completed o).
  - unfold position_updated. destruct db. by destruct (is_closed p).
  - by destruct db.
  - by intros c p Hc.
Qed.

Lemma reachable_order_position_linked (db : Db) :
  reachable db → order_position_linked db.
Proof.
  apply reachable_invariant; [apply transition_order_position_linked|].
  by intros c p Hc.
Qed.

(** X13. On every database reached from a fresh store, an order that
    [order→position] maps to a position is a member of that position's set
    in [position→orders]: the position id that [get_position_id] returns for
    an order always lists the order. *)
Theorem order_position_listed (db : Db) (c : ClientOrderId) (p : PositionId) :
  reachable db →
  (get_position_id (Some c) db).1 = Returned (Some p) →
  ∃ ids, index_position_orders db !! p = Some ids ∧ c ∈ ids.
Proof.
  intros Hreachable%reachable_order_position_linked.
  unfold get_position_id. unfold_M. cbn. intros [= Hc]. by apply Hreachable.
Qed.

Lemma order_position_listed_conflict :
  let db := run [AddOrder (Some order1) (Some P1) (Some S1);
                 AddPosition (Some position2) (Some S2)] init in
  ∃ ids, index_position_orders db !! P1 = Some ids ∧ O1 ∈ ids.
Proof.
  intros db.
  assert (reachable db) as Hreachable by (by eexists).
  exact (order_position_listed db O1 P1 Hreachable eq_refl).
Defined.

(** ** Dict-returning queries without defect *)

Lemma dom_partial_mapping `{Countable K} {V} (ids : gset K) (cache : gmap K V) :
  ids ⊆ dom cache → dom (partial_mapping ids cache) = ids.
Proof.
  intros Hbacked. unfold partial_mapping. apply set_eq. intros key.
  rewrite elem_of_dom. split.
  - intros [record Hrecord]. by apply map_lookup_filter_Some in Hrecord as [_ Hin].
  - intros Hin. pose proof (Hbacked key Hin) as Hkey.
    apply elem_of_dom in Hkey as [record Hrecord].
    exists record. by apply map_lookup_filter_Some.
Qed.

Lemma lookup_partial_mapping `{Countable K} {V} (ids : gset K) (cache : gmap K V)
    (key : K) (record : V) :
  partial_mapping ids cache !! key = Some record ↔ key ∈ ids ∧ cache !! key = Some record.
Proof. unfold partial_mapping. rewrite map_lookup_filter_Some. cbn. tauto. Qed.

Lemma project_backed `{Countable K} {V} (render : K → string) (prefix : string)
    (ids : gset K) (cache : gmap K V) (db : Db) :
  ids ⊆ dom cache →
  project render prefix ids cache db = (Returned (Bound (partial_mapping ids cache)), db).
Proof.
  intros Hbacked. apply project_complete. intros key Hkey.
  by apply elem_of_dom, Hbacked.
Qed.

(** X14. When every id of the id-set has a record in the primary store, a
    dict-returning query returns, logs nothing and changes nothing, and its
    dict has exactly the ids of the id-set query with the same filter as
    keys, each mapped to the record the primary store holds for it. *)
Theorem dict_query_backed (db : Db) (filter : option StrategyId) :
  (get_order_ids filter db ⊆ dom (cached_orders db) →
   ∃ orders, get_orders filter db = (Returned (Bound orders), db)
     ∧ dom orders = get_order_ids filter db ∧ orders ⊆ cached_orders db)
  ∧ (get_order_working_ids filter db ⊆ dom (cached_orders db) →
     ∃ orders, get_orders_working filter db = (Returned (Bound orders), db)
       ∧ dom orders = get_order_working_ids filter db ∧ orders ⊆ cached_orders db)
  ∧ (get_order_completed_ids filter db ⊆ dom (cached_orders db) →
     ∃ orders, get_orders_completed filter db = (Returned (Bound orders), db)
       ∧ dom orders = get_order_completed_ids filter db ∧ orders ⊆ cached_orders db)
  ∧ (get_position_ids filter db ⊆ dom (cached_positions db) →
     ∃ positions, get_positions filter db = (Returned (Bound positions), db)
       ∧ dom positions = get_position_ids filter db ∧ positions ⊆ cached_positions db)
  ∧ (get_position_open_ids filter db ⊆ dom (cached_positions db) →
     ∃ positions, get_positions_open filter db = (Returned (Bound positions), db)
       ∧ dom positions = get_position_open_ids filter db
       ∧ positions ⊆ cached_positions db)
  ∧ (get_position_closed_ids filter db ⊆ dom (cached_positions db) →
     ∃ positions, get_positions_closed filter db = (Returned (Bound positions), db)
       ∧ dom positions = get_position_closed_ids filter db
       ∧ positions ⊆ cached_positions db).
Proof.
  unfold get_orders, get_orders_working, get_orders_completed,
    get_positions, get_positions_open, get_positions_closed. unfold_M.
  split_and!; intros Hbacked; eexists;
    (split; [by apply project_backed|]);
    (split; [by apply dom_partial_mapping | apply map_filter_subseteq]).
Qed.

Lemma dict_query_backed_working :
  let db := run [AddOrder (Some order1) (Some P1) (Some S1);
                 UpdateOrder (Some working_order1)] init in
  ∃ orders, get_orders_working (Some S1) db = (Returned (Bound orders), db)
    ∧ dom orders = {[O1]}.
Proof.
  intros db.
  destruct (dict_query_backed db (Some S1)) as (_ & Hworking & _).
  destruct Hworking as (orders & Hquery & Hdom & _).
  - vm_compute. set_solver.
  - exists orders. split; [done|]. rewrite Hdom. by vm_compute.
Defined.

Lemma filtered_order_ids_subseteq (filter : option StrategyId) (db : Db) :
  get_order_ids filter db ⊆ index_orders db.
Proof.
  destruct filter as [s|]; cbn; [|done].
  destruct (index_strategy_orders db !! s); set_solver.
Qed.

Lemma filtered_position_ids_subseteq (filter : option StrategyId) (db : Db) :
  get_position_ids filter db ⊆ index_positions db.
Proof.
  destruct filter as [s|]; cbn; [|done].
  destruct (index_strategy_positions db !! s); set_solver.
Qed.

Lemma filtered_position_open_ids_subseteq (filter : option StrategyId) (db : Db) :
  get_position_open_ids filter db ⊆ index_positions_open db.
Proof.
  destruct filter as [s|]; cbn; [|done].
  destruct (index_strategy_positions db !! s); set_solver.
Qed.

Lemma partial_mapping_all `{Countable K} {V} (cache : gmap K V) :
  partial_mapping (dom cache) cache = cache.
Proof.
  apply map_eq. intros key. apply option_eq. intros record.
  rewrite lookup_partial_mapping, elem_of_dom. naive_solver.
Qed.

(** X15. On every database reached from a fresh store, [get_orders],
    [get_positions] and [get_positions_open] never meet an id without
    record, with any filter or none: each returns a dict keyed by exactly
    the ids of its id-set query, logs nothing and changes nothing.
    Unfiltered, [get_orders] returns the whole primary order store and
    [get_positions] the whole primary position store. *)
Theorem dict_queries_always_backed (db : Db) (filter : option StrategyId) :
  reachable db →
  (∃ orders, get_orders filter db = (Returned (Bound orders), db)
     ∧ dom orders = get_order_ids filter db)
  ∧ (∃ positions, get_positions filter db = (Returned (Bound positions), db)
     ∧ dom positions = get_position_ids filter db)
  ∧ (∃ positions, get_positions_open filter db = (Returned (Bound positions), db)
     ∧ dom positions = get_position_open_ids filter db)
  ∧ get_orders None db = (Returned (Bound (cached_orders db)), db)
  ∧ get_positions None db = (Returned (Bound (cached_positions db)), db).
Proof.
  intros Hreachable.
  destruct (reachable_orders_coherent db Hreachable) as (Horders & _).
  destruct (reachable_positions_coherent db Hreachable) as (Hpositions & Hopen & _).
  pose proof (filtered_order_ids_subseteq filter db) as Hids.
  pose proof (filtered_position_ids_subseteq filter db) as Hpids.
  pose proof (filtered_position_open_ids_subseteq filter db) as Hoids.
  unfold get_orders, get_positions, get_positions_open. unfold_M.
  rewrite !project_backed by set_solver.
  split_and!.
  - eexists. split; [done|]. apply dom_partial_mapping. set_solver.
  - eexists. split; [done|]. apply dom_partial_mapping. set_solver.
  - eexists. split; [done|]. apply dom_partial_mapping. set_solver.
  - cbn. by rewrite Horders, partial_mapping_all.
  - cbn. by rewrite Hpositions, partial_mapping_all.
Qed.

Lemma dict_queries_always_backed_session :
  let db := run [AddOrder (Some order1) (Some P1) (Some S1);
                 UpdateOrder (Some working_order1);
                 AddPosition (Some position1) (Some S1)] init in
  get_orders None db = (Returned (Bound (cached_orders db)), db)
  ∧ get_positions None db = (Returned (Bound (cached_positions db)), db).
Proof.
  intros db.
  assert (reachable db) as Hreachable by (by eexists).
  destruct (dict_queries_always_backed db None Hreachable) as (_ & _ & _ & Ho & Hp).
  split; [exact Ho | exact Hp].
Defined.

(** ** Filters and counts *)

Lemma filtered_subseteq `{Countable K} (base : gset K) (scoped : option (gset K)) :
  match scoped with None => ∅ | Some ids => base ∩ ids end ⊆ base.
Proof. destruct scoped; set_solver. Qed.

(** X16. A strategy filter only narrows: with any filter, each id-set query
    returns a subset of its unfiltered result, and each count query is at
    most its unfiltered count. *)
Theorem filter_narrows (db : Db) (filter : option StrategyId) :
  (get_order_ids filter db ⊆ get_order_ids None db
   ∧ get_order_working_ids filter db ⊆ get_order_working_ids None db
   ∧ get_order_completed_ids filter db ⊆ get_order_completed_ids None db
   ∧ get_position_ids filter db ⊆ get_position_ids None db
   ∧ get_position_open_ids filter db ⊆ get_position_open_ids None db
   ∧ get_position_closed_ids filter db ⊆ get_position_closed_ids None db)
  ∧ ((orders_total_count filter db ≤ orders_total_count None db)%nat
     ∧ (orders_working_count filter db ≤ orders_working_count None db)%nat
     ∧ (orders_completed_count filter db ≤ orders_completed_count None db)%nat
     ∧ (positions_total_count filter db ≤ positions_total_count None db)%nat
     ∧ (positions_open_count filter db ≤ positions_open_count None db)%nat
     ∧ (positions_closed_count filter db ≤ positions_closed_count None db)%nat).
Proof.
  assert (get_order_ids filter db ⊆ get_order_ids None db
          ∧ get_order_working_ids filter db ⊆ get_order_working_ids None db
          ∧ get_order_completed_ids filter db ⊆ get_order_completed_ids None db
          ∧ get_position_ids filter db ⊆ get_position_ids None db
          ∧ get_position_open_ids filter db ⊆ get_position_open_ids None db
          ∧ get_position_closed_ids filter db ⊆ get_position_closed_ids None db)
    as Hsub.
  { destruct filter as [s|]; cbn; [|done]. split_and!; apply filtered_subseteq. }
  split; [done|]. destruct Hsub as (?&?&?&?&?&?).
  unfold orders_total_count, orders_working_count, orders_completed_count,
    positions_total_count, positions_open_count, positions_closed_count.
  split_and!; by apply subseteq_size.
Qed.

(** X17. On every database reached from a fresh store, filtering all orders
    by a strategy returns exactly that strategy's set of [strategy→orders]:
    the set never holds an id that is not an order. *)
Theorem strategy_orders_are_orders (db : Db) (s : StrategyId) :
  reachable db → get_order_ids (Some s) db = strategy_orders s db.
Proof.
  intros (_ & _ & _ & Hscoped)%reachable_orders_coherent.
  unfold strategy_orders. cbn.
  destruct (index_strategy_orders db !! s) as [ids|] eqn:Hs; cbn; [|done].
  apply Hscoped in Hs. set_solver.
Qed.

Lemma strategy_orders_are_orders_session :
  let db := run [AddOrder (Some order1) (Some P1) (Some S1)] init in
  get_order_ids (Some S1) db = strategy_orders S1 db.
Proof.
  intros db. apply strategy_orders_are_orders. by eexists.
Defined.

(** ** Known strategies *)

Lemma transition_strategies c db db' :
  transition c db db' → is_update_strategy c = false →
  strategies db' ⊆ strategies db.
Proof.
  destruct 1 as [| | |o p s db _|p s db _| |o db|p db|st db _|]; intros Hc.
  - done.
  - by destruct db.
  - by destruct db.
  - unfold order_added, indexed. destruct (is_null p); by destruct db.
  - unfold position_added, indexed. by destruct db.
  - done.
  - unfold order_updated. destruct db. by destruct (is_working o), (is_completed o).
  - unfold position_updated. destruct db. by destruct (is_closed p).
  - destruct db; cbn. set_solver.
  - done.
Qed.

(** X18. Only [update_strategy] registers a strategy: [add_order] and
    [add_position] index a strategy id without making it known. After a
    sequence of commands from a fresh store that contains no
    [update_strategy], no strategy is known and [delete_strategy] raises the
    not-registered error for every strategy, also for one that orders and
    positions were added under. *)
Theorem strategy_not_registered_by_adding (cmds : list Command)
    (strategy : TradingStrategy) :
  forallb (λ c, negb (is_update_strategy c)) cmds = true →
  get_strategy_ids (run cmds init) = ∅
  ∧ delete_strategy (Some strategy) (run cmds init)
    = (Raised (NotRegistered "strategy.id" "strategies"), run cmds init).
Proof.
  intros Hcmds.
  assert (∀ db, strategies (run cmds db) ⊆ strategies db) as Hsub.
  { unfold run. induction cmds as [|c cmds IH]; intros db; cbn; [done|].
    cbn in Hcmds. apply andb_true_iff in Hcmds as [Hc%negb_true_iff Hcmds].
    etrans; [by apply IH|].
    apply (transition_strategies c); [apply exec_transition | done]. }
  specialize (Hsub init). cbn in Hsub.
  assert (strategies (run cmds init) = ∅) as Hnone by set_solver.
  split; [done|]. apply delete_strategy_unregistered. rewrite Hnone. set_solver.
Qed.

Lemma strategy_not_registered_by_adding_session :
  let db := run [AddOrder (Some order1) (Some null_position_id) (Some S1);
                 AddPosition (Some position1) (Some S1)] init in
  delete_strategy (Some strategy1) db
  = (Raised (NotRegistered "strategy.id" "strategies"), db).
Proof.
  intros db.
  by destruct (strategy_not_registered_by_adding
                 [AddOrder (Some order1) (Some null_position_id) (Some S1);
                  AddPosition (Some position1) (Some S1)] strategy1 eq_refl) as [_ Hraise].
Defined.

(** X19. [update_strategy] makes the strategy known, so that
    [delete_strategy] of it returns; after that [delete_strategy] the
    strategy is no longer known and a second [delete_strategy] raises the
    not-registered error. *)
Theorem strategy_registered_then_deleted (db : Db) (strategy : TradingStrategy) :
  let db1 := (update_strategy (Some strategy) db).2 in
  let db2 := (delete_strategy (Some strategy) db1).2 in
  (update_strategy (Some strategy) db).1 = Returned tt
  ∧ strat_id strategy ∈ get_strategy_ids db1
  ∧ (delete_strategy (Some strategy) db1).1 = Returned tt
  ∧ get_strategy_ids db2 = get_strategy_ids db ∖ {[strat_id strategy]}
  ∧ delete_strategy (Some strategy) db2
    = (Raised (NotRegistered "strategy.id" "strategies"), db2).
Proof.
  assert (strat_id strategy ∈ strategies (update_strategy (Some strategy) db).2) as Hknown.
  { unfold update_strategy. unfold_M. destruct db; cbn. set_solver. }
  cbn zeta. rewrite (delete_strategy_returns _ _ Hknown).
  split_and!; try done.
  - unfold update_strategy, get_strategy_ids. unfold_M. destruct db; cbn. set_solver.
  - apply delete_strategy_unregistered.
    unfold update_strategy. unfold_M. destruct db; cbn. set_solver.
Qed.

(** ** Reset gives a fresh store *)

Lemma command_same_data (c : Command) (db1 db2 : Db) :
  same_data db1 db2 →
  (command c db1).1 = (command c db2).1 ∧ same_data (exec c db1) (exec c db2).
Proof.
  unfold same_data, exec. intros Hsame. destruct db1, db2. cbn in Hsame.
  injection Hsame; intros; subst; clear Hsame.
  destruct c as [[a|]|[o|] [p|] [s|]|[p|] [s|]|a|[s|]|[o|]|[p|]|[s|]|[s|]| |];
    cbn [command]; try done.
  - unfold add_account. unfold_M. cbn. by case_decide.
  - unfold add_order. unfold_M. cbn. repeat case_decide; try done. cbn.
    destruct (is_null p); [done|]. by rewrite !index_position_id_returns.
  - unfold add_position. unfold_M. cbn. repeat case_decide; try done. cbn.
    by rewrite !index_position_id_returns.
  - unfold update_order. unfold_M. cbn. by destruct (is_working o), (is_completed o).
  - unfold update_position. unfold_M. cbn. by destruct (is_closed p).
  - unfold delete_strategy. unfold_M. cbn. case_decide; [|done]. cbn.
    by repeat case_decide.
Qed.

Lemma run_same_data (cmds : list Command) (db1 db2 : Db) :
  same_data db1 db2 → same_data (run cmds db1) (run cmds db2).
Proof.
  unfold run. revert db1 db2.
  induction cmds as [|c cmds IH]; intros db1 db2 Hsame; cbn; [done|].
  apply IH. by apply command_same_data.
Qed.

(** X20. After [reset] the store behaves as a fresh one: whatever the
    database was, every sequence of commands run after [reset] leaves every
    dict and set exactly as the same sequence leaves them on a fresh store,
    and every further command returns or raises the same way. Only the
    logged messages differ. *)
Theorem reset_like_fresh (db : Db) (cmds : list Command) (c : Command) :
  same_data (run cmds (exec Reset db)) (run cmds init)
  ∧ (command c (run cmds (exec Reset db))).1 = (command c (run cmds init)).1.
Proof.
  assert (same_data (exec Reset db) init) as Hfresh.
  { unfold exec. cbn [command]. by rewrite reset_returns. }
  pose proof (run_same_data cmds _ _ Hfresh) as Hsame.
  split; [done|]. by apply command_same_data.
Qed.

(** ** Positions per symbol *)

Lemma lookup_count_symbol (s s' : Symbol) (counts : gmap Symbol nat) :
  count_symbol s counts !! s'
  = if decide (s = s') then Some (default 0 (counts !! s) + 1) else counts !! s'.
Proof.
  unfold count_symbol. destruct (decide (s = s')) as [<-|Hne].
  - destruct (decide (s ∈ dom counts)) as [Hin|Hin].
    + apply elem_of_dom in Hin as [count Hcount].
      by rewrite lookup_alter_eq, Hcount.
    + apply not_elem_of_dom in Hin.
      by rewrite lookup_alter_eq, lookup_insert_eq, Hin.
  - rewrite lookup_alter_ne by done.
    destruct (decide (s ∈ dom counts)); [done|]. by rewrite lookup_insert_ne.
Qed.

(** X21. [get_symbol_position_counts] maps each symbol to the number of
    positions of the primary store that have it, and has no entry for a
    symbol without position: no count in the dict is zero. *)
Theorem symbol_position_counts (symbol : Position → Symbol) (db : Db) (s : Symbol) :
  get_symbol_position_counts symbol db !! s
  = counted (positions_of symbol s (cached_positions db)).
Proof.
  unfold get_symbol_position_counts. generalize (cached_positions db). intros positions.
  pose (P := λ (counts : gmap Symbol nat) (positions : gmap PositionId Position),
          counts !! s = counted (positions_of symbol s positions)).
  apply (map_fold_weak_ind P); unfold P, positions_of.
  - by rewrite map_filter_empty, map_size_empty.
  - intros key position m counts Hfresh IH.
    rewrite lookup_count_symbol. destruct (decide (symbol position = s)) as [Hs|Hs].
    + rewrite map_filter_insert_True by done.
      rewrite map_size_insert_None by (by rewrite map_lookup_filter_None; left).
      rewrite Hs, IH.
      destruct (size (filter (λ entry, symbol entry.2 = s) m)); cbn; f_equal; lia.
    + rewrite map_filter_insert_False by done. by rewrite delete_id.
Qed.

Example symbol_counts_session :
  let db := run [AddPosition (Some position1) (Some S1);
                 AddPosition (Some position2) (Some S1);
                 UpdatePosition (Some closed_position1)] init in
  get_symbol_position_counts symbol1 db !! AUDUSD = Some 1
  ∧ get_symbol_position_counts symbol1 db !! GBPUSD = Some 1
  ∧ get_symbol_position_counts symbol1 db !! mkSymbol "EUR/USD" = None.
Proof. by vm_compute. Qed.

(** ** The residual sweep *)

Lemma warn_residuals_returns {A} (str : A → string) (items : list A) (db : Db) :
  warn_residuals str items db
  = (Returned tt, set_log (λ l, l ++ (residual str <$> items)) db).
Proof.
  revert db. induction items as [|item items IH]; intros db; cbn.
  - destruct db; cbn. by rewrite app_nil_r.
  - unfold_M. cbn. rewrite IH. destruct db; cbn. by rewrite <- (assoc_L (++)).
Qed.

Lemma length_values_partial_mapping `{Countable K} {V} (ids : gset K) (cache : gmap K V) :
  ids ⊆ dom cache → length (values (partial_mapping ids cache)) = size ids.
Proof.
  intros Hbacked. unfold values.
  rewrite length_fmap, length_map_to_list, <- size_dom.
  by rewrite dom_partial_mapping.
Qed.

Lemma elem_of_values_partial_mapping `{Countable K} {V} (ids : gset K) (cache : gmap K V)
    (key : K) (record : V) :
  key ∈ ids → cache !! key = Some record → record ∈ values (partial_mapping ids cache).
Proof.
  intros Hin Hrecord. unfold values. apply list_elem_of_fmap. exists (key, record).
  split; [done|]. apply elem_of_map_to_list. by apply lookup_partial_mapping.
Qed.

(** X22. When every working order and every open position has a record in
    the primary store, [check_residuals] completes both sweeps, changes
    nothing but the log, and logs WARNING entries only: one per working
    order and one per open position, the orders first. *)
Theorem check_residuals_swept (str_order : Order → string)
    (str_position : Position → string) (db : Db) :
  index_orders_working db ⊆ dom (cached_orders db) →
  index_positions_open db ⊆ dom (cached_positions db) →
  ∃ orders positions,
    check_residuals str_order str_position db
    = (Returned Swept,
       set_log (λ l, l ++ (residual str_order <$> orders)
                       ++ (residual str_position <$> positions)) db)
    ∧ length orders = orders_working_count None db
    ∧ length positions = positions_open_count None db
    ∧ (∀ c order, c ∈ index_orders_working db → cached_orders db !! c = Some order →
         order ∈ orders)
    ∧ (∀ p position, p ∈ index_positions_open db →
         cached_positions db !! p = Some position → position ∈ positions).
Proof.
  intros Horders Hpositions.
  exists (values (partial_mapping (index_orders_working db) (cached_orders db))),
    (values (partial_mapping (index_positions_open db) (cached_positions db))).
  split_and!.
  - unfold check_residuals, get_orders_working, get_positions_open. unfold_M. cbn.
    rewrite project_backed by done. rewrite warn_residuals_returns.
    destruct db; cbn in *.
    rewrite project_backed by done. rewrite warn_residuals_returns. cbn.
    by rewrite <- (assoc_L (++)).
  - by apply length_values_partial_mapping.
  - by apply length_values_partial_mapping.
  - intros c order. apply elem_of_values_partial_mapping.
  - intros p position. apply elem_of_values_partial_mapping.
Qed.

Lemma check_residuals_swept_session :
  let db := run [AddOrder (Some order1) (Some P1) (Some S1);
                 UpdateOrder (Some working_order1);
                 AddPosition (Some position1) (Some S1)] init in
  let str_order := λ order, order_value (cl_ord_id order) in
  let str_position := λ position, position_value (pos_id position) in
  ∃ entries,
    check_residuals str_order str_position db
    = (Returned Swept, set_log (λ l, l ++ entries) db)
    ∧ length entries = 2.
Proof.
  intros db str_order str_position.
  destruct (check_residuals_swept str_order str_position db)
    as (orders & positions & Hrun & Horders & Hpositions & _).
  - apply (bool_decide_unpack _). by vm_compute.
  - apply (bool_decide_unpack _). by vm_compute.
  - eexists. split; [exact Hrun|].
    rewrite length_app, !length_fmap, Horders, Hpositions. by vm_compute.
Defined.

(** ** A deleted strategy starts over *)

(** X23. [delete_strategy] forgets which orders were the strategy's, but
    not whose strategy an order's was: for a known strategy,
    [get_strategy_for_order] and [get_strategy_for_position] answer after
    the deletion as before, and when an order is then added under the same
    strategy, [get_order_ids] filtered by it returns that order alone. *)
Theorem deleted_strategy_starts_over (db : Db) (strategy : TradingStrategy)
    (order : Order) (position_id : PositionId) :
  let s := strat_id strategy in
  let db1 := (delete_strategy (Some strategy) db).2 in
  let db2 := (add_order (Some order) (Some position_id) (Some s) db1).2 in
  s ∈ strategies db →
  (add_order (Some order) (Some position_id) (Some s) db1).1 = Returned tt →
  (∀ c, (get_strategy_for_order (Some c) db1).1 = (get_strategy_for_order (Some c) db).1)
  ∧ (∀ p, (get_strategy_for_position (Some p) db1).1
          = (get_strategy_for_position (Some p) db).1)
  ∧ get_order_ids (Some s) db2 = {[cl_ord_id order]}.
Proof.
  intros s db1 db2 Hknown Hreturned. subst db2.
  apply add_order_accepted in Hreturned as Hnew. rewrite add_order_returns by done.
  subst db1 s. rewrite delete_strategy_returns in * by done.
  unfold get_strategy_for_order, get_strategy_for_position, get_order_ids,
    order_added, indexed.
  unfold_M. destruct db, (is_null position_id); cbn.
  all: rewrite lookup_index_add, lookup_delete_eq; cbn.
  all: split_and!; try done; set_solver.
Qed.

Lemma deleted_strategy_starts_over_session :
  let db := run [UpdateStrategy (Some strategy1);
                 AddOrder (Some order1) (Some P1) (Some S1)] init in
  let order2 := mkOrder (mkClientOrderId "O2") true false in
  let db1 := (delete_strategy (Some strategy1) db).2 in
  let db2 := (add_order (Some order2) (Some P1) (Some S1) db1).2 in
  (get_strategy_for_order (Some O1) db1).1 = Returned (Some S1)
  ∧ get_order_ids (Some S1) db2 = {[mkClientOrderId "O2"]}.
Proof.
  intros db order2 db1 db2.
  destruct (deleted_strategy_starts_over db strategy1 order2 P1) as (Hkept & _ & Hids).
  - apply (bool_decide_unpack _). by vm_compute.
  - by vm_compute.
  - split; [by rewrite Hkept | exact Hids].
Defined.

(** ** Counting orders and positions *)

(** X24. On every database reached from a fresh store and with any filter,
    no order is counted both as working and as completed: the working and
    the completed count add up to the number of ids that the two id-set
    queries return together. *)
Theorem orders_counted_once (db : Db) (filter : option StrategyId) :
  reachable db →
  size (get_order_working_ids filter db ∪ get_order_completed_ids filter db)
  = (orders_working_count filter db + orders_completed_count filter db)%nat.
Proof.
  intros Hreachable.
  assert (orders_partition db) as Hdisjoint.
  { revert Hreachable. apply reachable_invariant; [apply transition_orders_partition|].
    apply intersection_empty_l_L. }
  unfold orders_partition in Hdisjoint.
  unfold orders_working_count, orders_completed_count. apply size_union.
  destruct filter as [s|]; cbn; [|set_solver].
  destruct (index_strategy_orders db !! s); set_solver.
Qed.

Lemma orders_counted_once_session :
  let db := run [UpdateOrder (Some working_order1);
                 UpdateOrder (Some completed_order1)] init in
  (orders_working_count None db + orders_completed_count None db)%nat = 1.
Proof.
  intros db.
  assert (reachable db) as Hreachable by (by eexists).
  rewrite <- (orders_counted_once db None Hreachable). by vm_compute.
Defined.

Lemma transition_positions_classified c db db' :
  transition c db db' → positions_classified db → positions_classified db'.
Proof.
  unfold positions_classified.
  destruct 1 as [| | |o p s db _|p s db _| |o db|p db| |]; intros Hinv.
  - done.
  - by destruct db.
  - by destruct db.
  - unfold order_added, indexed. destruct (is_null p); by destruct db.
  - unfold position_added, indexed. destruct db; cbn in *. set_solver.
  - by destruct db.
  - unfold order_updated. destruct db. by destruct (is_working o), (is_completed o).
  - unfold position_updated. destruct db; cbn in *.
    destruct (is_closed p); cbn; [|done].
    intros q Hq. apply Hinv in Hq. destruct (decide (q = pos_id p)); set_solver.
  - by destruct db.
  - done.
Qed.

(** X25. On every database reached from a fresh store, a position that
    exists is open or closed: whenever [position_exists] is true,
    [is_position_open] or [is_position_closed] is true. (Orders have no such
    property: [add_order] classifies nothing.) *)
Theorem position_open_or_closed (db : Db) (p : PositionId) :
  reachable db →
  (position_exists (Some p) db).1 = Returned true →
  (is_position_open (Some p) db).1 = Returned true
  ∨ (is_position_closed (Some p) db).1 = Returned true.
Proof.
  intros Hreachable.
  assert (positions_classified db) as Hclassified.
  { revert Hreachable. apply reachable_invariant; [apply transition_positions_classified|].
    done. }
  unfold position_exists, is_position_open, is_position_closed. unfold_M. cbn.
  intros [= Hexists%bool_decide_eq_true].
  apply Hclassified, elem_of_union in Hexists as [Hopen|Hclosed].
  - left. by rewrite bool_decide_eq_true_2.
  - right. by rewrite bool_decide_eq_true_2.
Qed.

Lemma position_open_or_closed_session :
  let db := run [AddPosition (Some position1) (Some S1);
                 UpdatePosition (Some closed_position1)] init in
  (is_position_open (Some P1) db).1 = Returned true
  ∨ (is_position_closed (Some P1) db).1 = Returned true.
Proof.
  intros db. apply position_open_or_closed; [by eexists | by vm_compute].
Defined.
